(** * EffectDeck core: the effect algebra and the capability registry

    A shallow embedding of [packages/core/src/effects]: the state model and
    the effect combinators of [Effect.ts], the four primitive effects
    ([DamageEffect.ts], [HealEffect.ts], [DrawCardEffect.ts] and the resource
    effect), and the [Context] registry, [MemoryStorage], [SimpleEventBus]
    and the [shuffle] and [pick] of [SeededRandomGenerator] of [Context.ts].

    Conventions of the embedding.
    - A JavaScript [number] that the code only uses as a counter or an amount
      is an integer of [Z]; [NaN], infinities and fractions are outside the
      model.  Template literals print such a number with [pretty].  The
      code computes on doubles: its arithmetic is the arithmetic of [Z] as
      long as the operands and the result are safe integers (at most
      [2^53 - 1] in absolute value), and the digits of [pretty] are those of
      the template literal below [1e21].  A theorem whose conclusion rests
      on a sum or a difference states that bound ([safe_integer]); module
      [Doubles] holds the same expressions on doubles, where they round.
    - The [players] object is an association list in the enumeration order of
      [Object.keys]; the code only reads entries and writes existing ones, so
      the order never changes.  [resources] and the registry's [Map]s, whose
      order is never observed, are [gmap]s.  A lookup sees own properties
      only; in the code [object[name]] also finds the members every object
      inherits from [Object.prototype] ([toString], [constructor], ...).
      The two agree on every name that is an own key or is not such a
      member ([Inherited.inherited_key]), and a theorem about a name that
      may be absent states that condition; module [Inherited] follows a
      read through the chain.
    - Immer's [produce(base, recipe)] is the pure function that returns the
      edited copy; when the recipe writes nothing it returns [base] itself, so
      "the same reference" is rendered as equality with the input state.
    - [random] and [log] of [GameContext] are called by none of the modelled
      code and are left out of the context record. *)

From Stdlib Require Import ZArith List.
From Stdlib Require Floats.PrimFloat.
From stdpp Require Import base option list strings pretty gmap.
Import ListNotations.

Set Warnings "-register-all,-inexact-float".

(** ** State model ([Effect.ts], lines 2-41) *)

Module StateModel.

(** Plain data as [JSON.stringify] sees it: the model of [unknown] for
    stored values, metadata entries and context extras. *)
Inductive JsValue : Type :=
| JUndefined
| JNull
| JBool (b : bool)
| JNum (z : Z)
| JStr (s : string)
| JArr (items : list JsValue)
| JObj (fields : list (string * JsValue)).

(** [Card.effects] is read by no code of the core; it is left out, which
    also keeps the effect tree below strictly positive. *)
Record Card : Type := mkCard {
  card_id : string;
  card_name : string;
  cost : Z;
  tags : list string
}.

(** The field [id] is [player_id] here. *)
Record PlayerState : Type := mkPlayer {
  player_id : string;
  health : Z;
  maxHealth : Z;
  hand : list Card;
  deck : list Card;
  discardPile : list Card;
  resources : gmap string Z
}.

(** ['draw' | 'main' | 'discard' | 'end'] *)
Inductive GamePhase : Type := draw | main | discard | end_phase.

Record GameState : Type := mkGameState {
  players : list (string * PlayerState);
  currentPlayer : string;
  turn : Z;
  phase : GamePhase
}.

Record EffectResult : Type := mkResult {
  success : bool;
  newState : GameState;
  messages : list string;
  metadata : option (list (string * JsValue))
}.

(** A value injected by [withContext]: plain data, or a whole game state
    (the only non-plain value the typed fields of a context can hold). *)
Inductive CtxValue : Type :=
| CtxData (v : JsValue)
| CtxState (g : GameState).

Record GameContext : Type := mkContext {
  playerId : string;
  gameState : GameState;
  extra : list (string * CtxValue)
}.

(** Field updates, as the spread [{ ...x, field: v }] or a draft write. *)
Definition with_gameState (ctx : GameContext) (g : GameState) : GameContext :=
  {| playerId := playerId ctx; gameState := g; extra := extra ctx |}.

Definition with_players (g : GameState) (ps : list (string * PlayerState)) : GameState :=
  {| players := ps; currentPlayer := currentPlayer g; turn := turn g; phase := phase g |}.

Definition with_health (p : PlayerState) (h : Z) : PlayerState :=
  {| player_id := player_id p; health := h; maxHealth := maxHealth p;
     hand := hand p; deck := deck p; discardPile := discardPile p;
     resources := resources p |}.

Definition with_resources (p : PlayerState) (r : gmap string Z) : PlayerState :=
  {| player_id := player_id p; health := health p; maxHealth := maxHealth p;
     hand := hand p; deck := deck p; discardPile := discardPile p;
     resources := r |}.

Definition with_piles (p : PlayerState) (h d dp : list Card) : PlayerState :=
  {| player_id := player_id p; health := health p; maxHealth := maxHealth p;
     hand := h; deck := d; discardPile := dp; resources := resources p |}.

(** [players[k]]: the entry under key [k], if any.  Own properties only:
    under a key that is absent and names a member of [Object.prototype] the
    code reads that member. *)
Fixpoint lookup_player (k : string) (ps : list (string * PlayerState)) : option PlayerState :=
  match ps with
  | [] => None
  | (k', p) :: rest => if String.eqb k' k then Some p else lookup_player k rest
  end.

(** The draft write to [players[k]]: the entry is replaced where it stands. *)
Fixpoint set_player (k : string) (p' : PlayerState) (ps : list (string * PlayerState))
  : list (string * PlayerState) :=
  match ps with
  | [] => []
  | (k', p) :: rest =>
      if String.eqb k' k then (k', p') :: rest else (k', p) :: set_player k p' rest
  end.

(** [Object.keys(players).find(id => id !== playerId)], with its entry. *)
Fixpoint find_other (pid : string) (ps : list (string * PlayerState))
  : option (string * PlayerState) :=
  match ps with
  | [] => None
  | (k, p) :: rest => if String.eqb k pid then find_other pid rest else Some (k, p)
  end.

(** Truthiness of a string in a condition: only the empty string is falsy. *)
Definition truthy_string (s : string) : bool := negb (String.eqb s "").

End StateModel.

(** ** Primitive effects *)

(** The result literal of the primitives and combinators: they never write
    the optional [metadata] field. *)
Definition result (ok : bool) (st : StateModel.GameState) (msgs : list string)
  : StateModel.EffectResult :=
  StateModel.mkResult ok st msgs None.

Inductive DamageTarget : Type := DamageSelf | DamageOpponent | DamageAll.
Inductive HealTarget : Type := HealSelf | HealAlly | HealAll.
Inductive PlayerTarget : Type := TargetSelf | TargetOpponent.
Inductive ResourceOperation : Type := OpGain | OpSpend | OpSet.

Definition damage_target_name (t : DamageTarget) : string :=
  match t with DamageSelf => "self" | DamageOpponent => "opponent" | DamageAll => "all" end.

Definition heal_target_name (t : HealTarget) : string :=
  match t with HealSelf => "self" | HealAlly => "ally" | HealAll => "all" end.

Definition player_target_name (t : PlayerTarget) : string :=
  match t with TargetSelf => "self" | TargetOpponent => "opponent" end.

Definition operation_name (o : ResourceOperation) : string :=
  match o with OpGain => "gain" | OpSpend => "spend" | OpSet => "set" end.

(** [target === 'self' ? playerId : Object.keys(players).find(id => id !== playerId)],
    the first statement of the draw and resource effects. *)
Definition resolve_target (target : PlayerTarget) (context : StateModel.GameContext)
  : option string :=
  match target with
  | TargetSelf => Some (StateModel.playerId context)
  | TargetOpponent =>
      fst <$> StateModel.find_other (StateModel.playerId context)
                (StateModel.players (StateModel.gameState context))
  end.

(** [DamageEffect.ts] *)
Module DamageEffect.
Import StateModel.

Definition description (amount : Z) (target : DamageTarget) : string :=
  "Deal " +:+ pretty amount +:+ " damage to " +:+ damage_target_name target.

(** One player's part of the recipe: [Math.min(amount, health)] is taken
    off and reported.  The message prints the digits of the template
    literal for amounts below [1e21]. *)
Definition actualDamage (amount : Z) (p : PlayerState) : Z := Z.min amount (health p).

Definition hit (amount : Z) (p : PlayerState) : PlayerState :=
  with_health p (health p - actualDamage amount p).

Definition takes (k : string) (amount : Z) (p : PlayerState) : string :=
  k +:+ " takes " +:+ pretty (actualDamage amount p) +:+ " damage".

Definition execute (amount : Z) (target : DamageTarget) (context : GameContext)
  : EffectResult :=
  let gs := gameState context in
  let pid := playerId context in
  match target with
  | DamageSelf =>
      match lookup_player pid (players gs) with
      | Some selfPlayer =>
          result true
            (with_players gs (set_player pid (hit amount selfPlayer) (players gs)))
            [takes pid amount selfPlayer]
      | None => result false gs ["Player " +:+ pid +:+ " not found"]
      end
  | DamageOpponent =>
      match find_other pid (players gs) with
      | Some (opponentId, opponent) =>
          if truthy_string opponentId then
            result true
              (with_players gs (set_player opponentId (hit amount opponent) (players gs)))
              [takes opponentId amount opponent]
          else result false gs ["No opponent found"%string]
      | None => result false gs ["No opponent found"%string]
      end
  | DamageAll =>
      result true
        (with_players gs (map (fun kp => (kp.1, hit amount kp.2)) (players gs)))
        (map (fun kp => takes kp.1 amount kp.2) (players gs))
  end.
End DamageEffect.

(** [HealEffect.ts] *)
Module HealEffect.
Import StateModel.

Definition description (amount : Z) (target : HealTarget) : string :=
  "Heal " +:+ pretty amount +:+ " to " +:+ heal_target_name target.

(** [Math.min(amount, maxHealth - health)] is added and reported, in the
    arithmetic of integers; [Doubles.healed] is the expression on doubles. *)
Definition actualHeal (amount : Z) (p : PlayerState) : Z :=
  Z.min amount (maxHealth p - health p).

Definition mend (amount : Z) (p : PlayerState) : PlayerState :=
  with_health p (health p + actualHeal amount p).

Definition heals (k : string) (amount : Z) (p : PlayerState) : string :=
  k +:+ " heals " +:+ pretty (actualHeal amount p) +:+ " health".

Definition execute (amount : Z) (target : HealTarget) (context : GameContext)
  : EffectResult :=
  let gs := gameState context in
  let pid := playerId context in
  match target with
  | HealSelf =>
      match lookup_player pid (players gs) with
      | Some selfPlayer =>
          result true
            (with_players gs (set_player pid (mend amount selfPlayer) (players gs)))
            [heals pid amount selfPlayer]
      | None => result false gs ["Player " +:+ pid +:+ " not found"]
      end
  | HealAlly =>
      match find_other pid (players gs) with
      | Some (allyId, ally) =>
          if truthy_string allyId then
            result true
              (with_players gs (set_player allyId (mend amount ally) (players gs)))
              [heals allyId amount ally]
          else result false gs ["No ally found"%string]
      | None => result false gs ["No ally found"%string]
      end
  | HealAll =>
      result true
        (with_players gs (map (fun kp => (kp.1, mend amount kp.2)) (players gs)))
        (map (fun kp => heals kp.1 amount kp.2) (players gs))
  end.
End HealEffect.

(** [DrawCardEffect.ts] *)
Module DrawCardEffect.
Import StateModel.

Definition description (count : Z) (target : PlayerTarget) : string :=
  "Draw " +:+ pretty count +:+ " card" +:+ (if (1 <? count)%Z then "s" else "")
  +:+ " (" +:+ player_target_name target +:+ ")".

(** [deck = [...discardPile]; discardPile = []] *)
Definition refill (p : PlayerState) : PlayerState :=
  with_piles p (hand p) (discardPile p) [].

(** [hand.push(deck.pop())]: the last card of the deck goes to the end of
    the hand. *)
Definition draw_top (p : PlayerState) : PlayerState :=
  match last (deck p) with
  | Some card => with_piles p (hand p ++ [card]) (removelast (deck p)) (discardPile p)
  | None => p
  end.

Definition is_empty {A : Type} (l : list A) : bool :=
  match l with [] => true | _ => false end.

(** The guarded pop that ends an iteration of the loop. *)
Definition pop_if_any (p : PlayerState) (cardsDrawn : Z) : PlayerState * Z :=
  if is_empty (deck p) then (p, cardsDrawn) else (draw_top p, (cardsDrawn + 1)%Z).

(** The [for] loop of the recipe, [n] iterations left; [break] is the branch
    without a recursive call. *)
Fixpoint draw_loop (targetId : string) (n : nat) (p : PlayerState) (cardsDrawn : Z)
  (msgs : list string) : PlayerState * Z * list string :=
  match n with
  | O => (p, cardsDrawn, msgs)
  | S n' =>
      if is_empty (deck p) then
        if is_empty (discardPile p) then
          (p, cardsDrawn, msgs ++ [targetId +:+ " cannot draw - no cards available"])
        else
          let '(p', drawn') := pop_if_any (refill p) cardsDrawn in
          draw_loop targetId n' p' drawn'
            (msgs ++ [targetId +:+ " shuffles discard pile into deck"])
      else
        let '(p', drawn') := pop_if_any p cardsDrawn in
        draw_loop targetId n' p' drawn' msgs
  end.

Definition draws (targetId : string) (cardsDrawn : Z) : list string :=
  if (0 <? cardsDrawn)%Z then
    [targetId +:+ " draws " +:+ pretty cardsDrawn +:+ " card"
       +:+ (if (1 <? cardsDrawn)%Z then "s" else "")]
  else [].

Definition execute (count : Z) (target : PlayerTarget) (context : GameContext)
  : EffectResult :=
  let gs := gameState context in
  match resolve_target target context with
  | Some targetId =>
      if truthy_string targetId then
        match lookup_player targetId (players gs) with
        | Some player =>
            let '(p', cardsDrawn, msgs) := draw_loop targetId (Z.to_nat count) player 0%Z [] in
            result true (with_players gs (set_player targetId p' (players gs)))
              (msgs ++ draws targetId cardsDrawn)
        | None => result false gs ["Player " +:+ targetId +:+ " not found"]
        end
      else result false gs ["No " +:+ player_target_name target +:+ " player found"]
  | None => result false gs ["No " +:+ player_target_name target +:+ " player found"]
  end.
End DrawCardEffect.

(** The resource effect (class [ResourceEffect]) *)
Module ResourceEffect.
Import StateModel.

Definition description (resourceType : string) (amount : Z)
  (operation : ResourceOperation) (target : PlayerTarget) : string :=
  operation_name operation +:+ " " +:+ pretty amount +:+ " " +:+ resourceType
  +:+ " (" +:+ player_target_name target +:+ ")".

(** [resources[resourceType] || 0], on own properties: 0 when the resource
    type is unset.  [Inherited.read] is the read through the prototype
    chain, which differs under an unset name that [Object.prototype]
    defines. *)
Definition currentAmount (resourceType : string) (p : PlayerState) : Z :=
  default 0%Z (resources p !! resourceType).

Definition write (resourceType : string) (v : Z) (p : PlayerState) : PlayerState :=
  with_resources p (<[resourceType := v]> (resources p)).

Definition short_of (targetId resourceType : string) (current amount : Z) : string :=
  targetId +:+ " doesn't have enough " +:+ resourceType
  +:+ " (" +:+ pretty current +:+ "/" +:+ pretty amount +:+ ")".

(** The [switch] of the recipe on the target's draft: the [success] flag,
    the player after the writes, and the message pushed.  The failing branch
    of [spend] writes nothing.  The sum and the difference are those of the
    code when they are safe integers ([Doubles.gain] and [Doubles.spend]
    round beyond). *)
Definition apply_operation (targetId resourceType : string) (amount : Z)
  (operation : ResourceOperation) (p : PlayerState) : bool * PlayerState * string :=
  let current := currentAmount resourceType p in
  match operation with
  | OpGain =>
      (true, write resourceType (current + amount)%Z p,
       targetId +:+ " gains " +:+ pretty amount +:+ " " +:+ resourceType)
  | OpSpend =>
      if (current <? amount)%Z then
        (false, p, short_of targetId resourceType current amount)
      else
        (true, write resourceType (current - amount)%Z p,
         targetId +:+ " spends " +:+ pretty amount +:+ " " +:+ resourceType)
  | OpSet =>
      (true, write resourceType amount p,
       targetId +:+ " " +:+ resourceType +:+ " set to " +:+ pretty amount)
  end.

Definition execute (resourceType : string) (amount : Z) (operation : ResourceOperation)
  (target : PlayerTarget) (context : GameContext) : EffectResult :=
  let gs := gameState context in
  match resolve_target target context with
  | Some targetId =>
      if truthy_string targetId then
        match lookup_player targetId (players gs) with
        | Some player =>
            let '(ok, p', msg) := apply_operation targetId resourceType amount operation player in
            result ok (with_players gs (set_player targetId p' (players gs))) [msg]
        | None => result false gs ["Player " +:+ targetId +:+ " not found"]
        end
      else result false gs ["No " +:+ player_target_name target +:+ " player found"]
  | None => result false gs ["No " +:+ player_target_name target +:+ " player found"]
  end.
End ResourceEffect.

(** ** The effect tree and its combinators ([Effect.ts], lines 43-289) *)

Module Effect.
Import StateModel.

(** One constructor per class of the repository, and [Custom] for any other
    subclass of the abstract class: its [type], its [description] and its
    [execute], a function of the context. *)
Inductive Effect : Type :=
| DamageEffect (amount : Z) (target : DamageTarget)
| HealEffect (amount : Z) (target : HealTarget)
| DrawCardEffect (count : Z) (target : PlayerTarget)
| ResourceEffect (resourceType : string) (amount : Z) (operation : ResourceOperation)
    (target : PlayerTarget)
| CompositeEffect (effects : list Effect)
| ChainedEffect (first : Effect) (chainFn : EffectResult -> Effect)
| ConditionalEffect (effect : Effect) (predicate : GameContext -> bool)
| RepeatedEffect (effect : Effect) (times : Z)
| ContextualEffect (effect : Effect) (key : string) (value : CtxValue)
| SequentialEffect (effects : list Effect)
| ParallelEffect (effects : list Effect)
| Custom (type description : string) (run : GameContext -> EffectResult).

(** The [description] field, computed by each constructor. *)
Fixpoint description (e : Effect) : string :=
  match e with
  | DamageEffect amount target => DamageEffect.description amount target
  | HealEffect amount target => HealEffect.description amount target
  | DrawCardEffect count target => DrawCardEffect.description count target
  | ResourceEffect resourceType amount operation target =>
      ResourceEffect.description resourceType amount operation target
  | CompositeEffect effects => "Composite: " +:+ String.concat ", " (map description effects)
  | ChainedEffect first _ => "Chained: " +:+ description first +:+ " -> (dynamic)"
  | ConditionalEffect effect _ => "Conditional: " +:+ description effect
  | RepeatedEffect effect times => "Repeat " +:+ pretty times +:+ "x: " +:+ description effect
  | ContextualEffect effect key _ => "With context [" +:+ key +:+ "]: " +:+ description effect
  | SequentialEffect effects => "Sequential: " +:+ String.concat " -> " (map description effects)
  | ParallelEffect effects => "Parallel: " +:+ String.concat " | " (map description effects)
  | Custom _ description _ => description
  end.

(** [{ ...context, [key]: value }].  A key that names a typed field replaces
    that field; any other pair is an ephemeral extra.  A value of the wrong
    type under [playerId] or [gameState] would give the subtree a context
    that the declaration of [GameContext] excludes: the model keeps such a
    pair among the extras. *)
Definition with_key (context : GameContext) (key : string) (value : CtxValue) : GameContext :=
  match value with
  | CtxState g =>
      if String.eqb key "gameState" then with_gameState context g
      else {| playerId := playerId context; gameState := gameState context;
              extra := (key, value) :: extra context |}
  | CtxData (JStr s) =>
      if String.eqb key "playerId" then
        {| playerId := s; gameState := gameState context; extra := extra context |}
      else {| playerId := playerId context; gameState := gameState context;
              extra := (key, value) :: extra context |}
  | CtxData _ =>
      {| playerId := playerId context; gameState := gameState context;
         extra := (key, value) :: extra context |}
  end.

(** [{ ...state, ...result.newState }]: every state carries the four fields
    of [GameState], so each one is taken from the right operand. *)
Definition spread_merge (state next : GameState) : GameState :=
  {| players := players next; currentPlayer := currentPlayer next;
     turn := turn next; phase := phase next |}.

Section Loops.
Variable exec : Effect -> GameContext -> EffectResult.
Variable context : GameContext.

(** The loop of [CompositeEffect.execute]: the locals [currentState] and
    [allMessages] are the accumulators, [success] is decided at the exit. *)
Fixpoint composite_loop (effects : list Effect) (currentState : GameState)
  (allMessages : list string) {struct effects} : EffectResult :=
  match effects with
  | [] => result true currentState allMessages
  | effect :: rest =>
      let r := exec effect (with_gameState context currentState) in
      if success r then composite_loop rest (newState r) (allMessages ++ messages r)
      else result false (newState r) (allMessages ++ messages r)
  end.

(** The loop of [SequentialEffect.execute], which returns from inside. *)
Fixpoint sequential_loop (effects : list Effect) (currentState : GameState)
  (allMessages : list string) {struct effects} : EffectResult :=
  match effects with
  | [] => result true currentState allMessages
  | effect :: rest =>
      let r := exec effect (with_gameState context currentState) in
      let currentState' := newState r in
      let allMessages' := allMessages ++ messages r in
      if negb (success r) then result false currentState' allMessages'
      else sequential_loop rest currentState' allMessages'
  end.

(** The loop of [RepeatedEffect.execute], [n] iterations left. *)
Fixpoint repeated_loop (effect : Effect) (n : nat) (currentState : GameState)
  (allMessages : list string) {struct n} : EffectResult :=
  match n with
  | O => result true currentState allMessages
  | S n' =>
      let r := exec effect (with_gameState context currentState) in
      if success r then repeated_loop effect n' (newState r) (allMessages ++ messages r)
      else result false (newState r) (allMessages ++ messages r)
  end.
End Loops.

Fixpoint execute (e : Effect) (context : GameContext) {struct e} : EffectResult :=
  match e with
  | DamageEffect amount target => DamageEffect.execute amount target context
  | HealEffect amount target => HealEffect.execute amount target context
  | DrawCardEffect count target => DrawCardEffect.execute count target context
  | ResourceEffect resourceType amount operation target =>
      ResourceEffect.execute resourceType amount operation target context
  | CompositeEffect effects => composite_loop execute context effects (gameState context) []
  | ChainedEffect first chainFn =>
      let firstResult := execute first context in
      if negb (success firstResult) then firstResult
      else
        let secondResult :=
          execute (chainFn firstResult) (with_gameState context (newState firstResult)) in
        result (success secondResult) (newState secondResult)
          (messages firstResult ++ messages secondResult)
  | ConditionalEffect effect predicate =>
      if predicate context then execute effect context
      else result true (gameState context)
             ["Condition not met for: " +:+ description effect]
  | RepeatedEffect effect times =>
      repeated_loop execute context effect (Z.to_nat times) (gameState context) []
  | ContextualEffect effect key value => execute effect (with_key context key value)
  | SequentialEffect effects => sequential_loop execute context effects (gameState context) []
  | ParallelEffect effects =>
      let results := map (fun effect => execute effect context) effects in
      let ok := forallb success results in
      let allMessages := flat_map messages results in
      let finalState :=
        if ok then fold_left (fun state r => spread_merge state (newState r)) results
                     (gameState context)
        else gameState context in
      result ok finalState allMessages
  | Custom _ _ run => run context
  end.

(** The composition methods of the abstract class ([Effect.ts], lines
    49-79): each one only builds a node. *)
Definition compose (this other : Effect) : Effect := CompositeEffect [this; other].

Definition chain (this : Effect) (fn : EffectResult -> Effect) : Effect :=
  ChainedEffect this fn.

Definition conditional (this : Effect) (predicate : GameContext -> bool) : Effect :=
  ConditionalEffect this predicate.

Definition repeat (this : Effect) (times : Z) : Effect := RepeatedEffect this times.

Definition withContext (this : Effect) (key : string) (value : CtxValue) : Effect :=
  ContextualEffect this key value.

Definition all (effects : list Effect) : Effect := CompositeEffect effects.
Definition sequence (effects : list Effect) : Effect := SequentialEffect effects.
Definition parallel (effects : list Effect) : Effect := ParallelEffect effects.

End Effect.

(** ** The capability registry ([Context.ts], lines 2-56) *)

(** How a method call ends: with a value, or with a thrown [Error]. *)
Inductive Outcome (A : Type) : Type :=
| Returned (a : A)
| Thrown (message : string).
Arguments Returned {A} a.
Arguments Thrown {A} message.

Module Registry.

(** A service instance: its [id] field and the identity of the object. *)
Record Service : Type := mkService {
  service_id : string;
  object_id : nat
}.

(** [provide(): T] of a provider: a closure that may build a new object.  It
    receives the number of objects built so far and returns the instance and
    the new count. *)
Definition Provider : Type := nat -> Service * nat.

(** The two private [Map]s of a [Context] object. *)
Record Context : Type := mkContext {
  services : gmap string Service;
  providers : gmap string Provider
}.

(** [Context] objects are mutable ([provide] writes the cache) and are
    handled by reference: the heap maps the address of each live object to
    its fields. *)
Record Heap : Type := mkHeap {
  contexts : gmap nat Context;
  built : nat
}.

Definition update (this : nat) (c : Context) (h : Heap) : Heap :=
  mkHeap (<[this := c]> (contexts h)) (built h).

(** [new Context()]: a fresh address holding two empty maps. *)
Definition new_Context (h : Heap) : nat * Heap :=
  let r := fresh (dom (contexts h)) in
  (r, update r (mkContext ∅ ∅) h).

(** [copyFrom(other)]: every entry of [other] is [set] into the maps of
    [this], so [other]'s entries win over entries already there. *)
Definition copyFrom (this other : nat) (h : Heap) : Heap :=
  match contexts h !! this, contexts h !! other with
  | Some c, Some o =>
      update this (mkContext (services o ∪ services c) (providers o ∪ providers c)) h
  | _, _ => h
  end.

Definition addProvider (this : nat) (id : string) (provider : Provider) (h : Heap) : Heap :=
  match contexts h !! this with
  | Some c => update this (mkContext (services c) (<[id := provider]> (providers c))) h
  | None => h
  end.

(** [register(id, provider)]: [new Context().copyFrom(this).addProvider(id, provider)] *)
Definition register (this : nat) (id : string) (provider : Provider) (h : Heap)
  : nat * Heap :=
  let '(r, h1) := new_Context h in
  (r, addProvider r id provider (copyFrom r this h1)).

(** [fork()]: [new Context().copyFrom(this)] *)
Definition fork (this : nat) (h : Heap) : nat * Heap :=
  let '(r, h1) := new_Context h in
  (r, copyFrom r this h1).

Definition no_provider (id : string) : string :=
  "No provider registered for service: " +:+ id.

(** [provide(id)] *)
Definition provide (this : nat) (id : string) (h : Heap) : Outcome Service * Heap :=
  match contexts h !! this with
  | None => (Thrown "TypeError: not an object", h)
  | Some c =>
      match services c !! id with
      | Some cached => (Returned cached, h)
      | None =>
          match providers c !! id with
          | None => (Thrown (no_provider id), h)
          | Some provider =>
              let '(service, n) := provider (built h) in
              (Returned service,
               mkHeap (<[this := mkContext (<[id := service]> (services c)) (providers c)]>
                         (contexts h)) n)
          end
      end
  end.

(** [has(id)] *)
Definition has (this : nat) (id : string) (h : Heap) : bool :=
  match contexts h !! this with
  | Some c => bool_decide (is_Some (providers c !! id)) || bool_decide (is_Some (services c !! id))
  | None => false
  end.

(** Every cached instance was built by a provider of the same object: the
    shape of every object reached from [new Context()] by the methods. *)
Definition lineage_closed (c : Context) : Prop :=
  forall id, is_Some (services c !! id) -> is_Some (providers c !! id).

End Registry.

(** ** The in-memory store ([Context.ts], lines 146-166) *)

Module MemoryStorage.
Import StateModel.

(** [JSON.parse(JSON.stringify(v))] below the top level: an [undefined]
    array item comes back as [null], an [undefined] field is dropped, and
    everything else is rebuilt as it is. *)
Fixpoint clone (v : JsValue) : JsValue :=
  match v with
  | JUndefined => JNull
  | JArr items => JArr (map clone items)
  | JObj fields =>
      JObj (flat_map (fun kv =>
                        match kv with
                        | (_, JUndefined) => []
                        | (k, field) => [(k, clone field)]
                        end) fields)
  | _ => v
  end.

(** At the top level [JSON.stringify(undefined)] is [undefined], which
    [JSON.parse] rejects with a [SyntaxError]. *)
Definition deep_copy (v : JsValue) : Outcome JsValue :=
  match v with
  | JUndefined => Thrown "SyntaxError"
  | _ => Returned (clone v)
  end.

(** The test [data ? ... : ...]: [undefined], [null], [false], [0] and the
    empty string are falsy, every array and object is truthy. *)
Definition truthy (v : JsValue) : bool :=
  match v with
  | JUndefined | JNull => false
  | JBool b => b
  | JNum z => negb (z =? 0)%Z
  | JStr s => negb (String.eqb s "")
  | JArr _ | JObj _ => true
  end.

(** [save(key, data)], awaited: the outcome and the [data] map after it. *)
Definition save (key : string) (data : JsValue) (store : gmap string JsValue)
  : Outcome unit * gmap string JsValue :=
  match deep_copy data with
  | Returned copy => (Returned (), <[key := copy]> store)
  | Thrown e => (Thrown e, store)
  end.

(** [load(key)], awaited; [null] is the "absent" result. *)
Definition load (key : string) (store : gmap string JsValue) : Outcome JsValue :=
  match store !! key with
  | Some data => if truthy data then deep_copy data else Returned JNull
  | None => Returned JNull
  end.

(** [exists(key)] *)
Definition exists_ (key : string) (store : gmap string JsValue) : bool :=
  bool_decide (is_Some (store !! key)).

(** [delete(key)] *)
Definition delete_ (key : string) (store : gmap string JsValue) : gmap string JsValue :=
  delete key store.

End MemoryStorage.

(** ** The event bus ([Context.ts], lines 168-200) *)

Module SimpleEventBus.
Import StateModel.

Section Bus.
(** What the handlers act on.  A handler is a function object: its identity,
    by which a [Set] tells handlers apart, and its body, which receives the
    data, changes the world and returns or throws.  Handlers that call back
    into the bus while it is emitting are outside the model. *)
Variable World : Type.

Record Handler : Type := mkHandler {
  handler_ref : nat;
  call : JsValue -> World -> Outcome unit * World
}.

(** The bus: the [handlers] map from an event to the address of its [Set],
    and the [Set] objects themselves, each the list of its members in
    insertion order.  A [Set] outlives its entry in the map, because the
    closures returned by [subscribe] hold it. *)
Record Bus : Type := mkBus {
  handlers : gmap string nat;
  sets : gmap nat (list Handler)
}.

Definition new_bus : Bus := mkBus ∅ ∅.

Definition is_member (h : Handler) (members : list Handler) : bool :=
  existsb (fun m => Nat.eqb (handler_ref m) (handler_ref h)) members.

(** [Set.prototype.add]: a member is not added again. *)
Definition set_add (h : Handler) (members : list Handler) : list Handler :=
  if is_member h members then members else members ++ [h].

(** [Set.prototype.delete] *)
Definition set_delete (h : Handler) (members : list Handler) : list Handler :=
  List.filter (fun m => negb (Nat.eqb (handler_ref m) (handler_ref h))) members.

(** The [for] loop of [emit]: each handler runs inside [try]; what a
    handler throws goes to [console.error], as the label and the error, and
    the loop goes on. *)
Fixpoint run_handlers (event : string) (data : JsValue) (members : list Handler)
  (w : World) (console : list (string * string)) : World * list (string * string) :=
  match members with
  | [] => (w, console)
  | handler :: rest =>
      match call handler data w with
      | (Returned _, w') => run_handlers event data rest w' console
      | (Thrown error, w') =>
          run_handlers event data rest w'
            (console ++ [("Error in event handler for " +:+ event +:+ ":", error)])
      end
  end.

(** [emit(event, data)]: the world and the console lines after it. *)
Definition emit (event : string) (data : JsValue) (bus : Bus) (w : World)
  : World * list (string * string) :=
  match handlers bus !! event with
  | Some s => run_handlers event data (default [] (sets bus !! s)) w []
  | None => (w, [])
  end.

(** The closure that [subscribe] returns: the event, the [Set] it captured
    and the handler. *)
Record Unsubscribe : Type := mkUnsubscribe {
  of_event : string;
  of_set : nat;
  of_handler : Handler
}.

(** [subscribe(event, handler)] *)
Definition subscribe (event : string) (handler : Handler) (bus : Bus)
  : Unsubscribe * Bus :=
  let '(s, bus1) :=
    match handlers bus !! event with
    | Some s => (s, bus)
    | None =>
        let s := fresh (dom (sets bus)) in
        (s, mkBus (<[event := s]> (handlers bus)) (<[s := []]> (sets bus)))
    end in
  (mkUnsubscribe event s handler,
   mkBus (handlers bus1)
     (<[s := set_add handler (default [] (sets bus1 !! s))]> (sets bus1))).

(** Calling the closure: the handler leaves the captured [Set], and when
    that [Set] is empty the event's entry is deleted from the map. *)
Definition unsubscribe (u : Unsubscribe) (bus : Bus) : Bus :=
  let members := set_delete (of_handler u) (default [] (sets bus !! of_set u)) in
  let sets' := <[of_set u := members]> (sets bus) in
  match members with
  | [] => mkBus (delete (of_event u) (handlers bus)) sets'
  | _ => mkBus (handlers bus) sets'
  end.

End Bus.

Arguments mkHandler {World} handler_ref call.
Arguments handler_ref {World} h.
Arguments call {World} h data w.
Arguments mkBus {World} handlers sets.
Arguments handlers {World} b.
Arguments sets {World} b.
Arguments new_bus {World}.
Arguments is_member {World} h members.
Arguments set_add {World} h members.
Arguments set_delete {World} h members.
Arguments run_handlers {World} event data members w console.
Arguments emit {World} event data bus w.
Arguments mkUnsubscribe {World} of_event of_set of_handler.
Arguments of_event {World} u.
Arguments of_set {World} u.
Arguments of_handler {World} u.
Arguments subscribe {World} event handler bus.
Arguments unsubscribe {World} u bus.

End SimpleEventBus.

(** ** The random generator ([Context.ts], lines 115-144) *)

Module SeededRandomGenerator.

Section Generator.
(** [next] and [nextInt] compute on floating-point numbers ([Math.sin], a
    product and [Math.floor]), which this development does not represent:
    [nextInt] is taken as given, a method that reads and advances the state
    of the generator and returns an integer.  [shuffle] and [pick] are
    modelled on it as they are written. *)
Variable State : Type.
Variable nextInt : State -> Z -> Z -> Z * State.
Variable A : Type.

(** [[result[i], result[j]] = [result[j], result[i]]].  With an index
    outside the array the destructuring assignment would leave a hole or a
    stray property; such arrays are not represented, and the answer is
    [None]. *)
Definition swap (i : nat) (j : Z) (result : list A) : option (list A) :=
  if (j <? 0)%Z then None
  else
    match result !! i, result !! Z.to_nat j with
    | Some x, Some y => Some (<[Z.to_nat j := x]> (<[i := y]> result))
    | _, _ => None
    end.

(** The loop of [shuffle], from [i] down to 1; it is followed as long as
    the array stays an array without holes. *)
Fixpoint shuffle_loop (i : nat) (result : list A) (st : State) : option (list A) * State :=
  match i with
  | O => (Some result, st)
  | S i' =>
      let '(j, st') := nextInt st 0 (Z.of_nat i) in
      match swap i j result with
      | Some result' => shuffle_loop i' result' st'
      | None => (None, st')
      end
  end.

(** [shuffle(array)]: the loop runs on a copy, from the last index. *)
Definition shuffle (array : list A) (st : State) : option (list A) * State :=
  shuffle_loop (length array - 1) array st.

(** [pick(array)]: [array[nextInt(0, array.length - 1)]], [None] for
    [undefined]. *)
Definition pick (array : list A) (st : State) : option A * State :=
  let '(j, st') := nextInt st 0 (Z.of_nat (length array) - 1) in
  ((if (j <? 0)%Z then None else array !! Z.to_nat j), st').

End Generator.

Arguments swap {A} i j result.
Arguments shuffle_loop {State} nextInt {A} i result st.
Arguments shuffle {State} nextInt {A} array st.
Arguments pick {State} nextInt {A} array st.

End SeededRandomGenerator.

(** ** The arithmetic of the recipes on doubles *)

Module Doubles.
Import PrimFloat.

(** [Math.min(a, b)] on two doubles: [NaN] if either is, and [-0] below
    [+0]. *)
Definition js_min (a b : float) : float :=
  if (is_nan a || is_nan b)%bool then nan
  else if ltb a b then a
  else if ltb b a then b
  else if get_sign a then a else b.

(** The two numbers of a player that damage and heal read and write. *)
Record Vitals : Type := {
  health : float;
  maxHealth : float
}.


(** [health += Math.min(amount, maxHealth - health)] ([HealEffect.ts],
    lines 26-27): the health after the heal. *)
Definition healed (amount health maxHealth : float) : float :=
  add health (js_min amount (sub maxHealth health)).

(** [health -= Math.min(amount, health)] ([DamageEffect.ts], lines 26-27) *)
Definition damaged (amount health : float) : float :=
  sub health (js_min amount health).

(** The writes of [HealEffect] and [DamageEffect] on one player's draft. *)
Definition mend (amount : float) (player : Vitals) : Vitals :=
  {| health := healed amount (health player) (maxHealth player);
     maxHealth := maxHealth player |}.

Definition hit (amount : float) (player : Vitals) : Vitals :=
  {| health := damaged amount (health player);
     maxHealth := maxHealth player |}.

(** [resources[resourceType] || 0] on a [resources] object of doubles:
    [NaN] and the two zeros are falsy. *)
Definition currentAmount (resources : gmap string float) (resourceType : string) : float :=
  match resources !! resourceType with
  | Some v => if (is_nan v || is_zero v)%bool then zero else v
  | None => zero
  end.

(** The [gain] case of the resource effect's recipe (lines 46 and 50):
    the [resources] after [resources[resourceType] = currentAmount + amount]. *)
Definition gain (resources : gmap string float) (resourceType : string) (amount : float)
  : gmap string float :=
  <[resourceType := add (currentAmount resources resourceType) amount]> resources.

(** The [spend] case (lines 46 and 54-62): the [success] flag and the
    [resources] after it. *)
Definition spend (resources : gmap string float) (resourceType : string) (amount : float)
  : bool * gmap string float :=
  let current := currentAmount resources resourceType in
  if ltb current amount then (false, resources)
  else (true, <[resourceType := sub current amount]> resources).

End Doubles.

(** ** Member reads through the prototype chain *)

(** [resources[resourceType]] on a plain object finds the own property and,
    failing that, the member of that name that every object inherits from
    [Object.prototype].  This module follows the [spend] branch of the
    resource effect on such a read. *)
Module Inherited.

Definition Object_prototype_names : list string :=
  ["constructor"; "__defineGetter__"; "__defineSetter__"; "hasOwnProperty";
   "__lookupGetter__"; "__lookupSetter__"; "isPrototypeOf"; "propertyIsEnumerable";
   "toString"; "valueOf"; "__proto__"; "toLocaleString"]%string.

Definition inherited_key (k : string) : bool :=
  existsb (String.eqb k) Object_prototype_names.

(** What [resources[resourceType]] evaluates to, and what the recipe can
    store: a number, [NaN], a member of [Object.prototype] (a function, or
    the prototype itself for [__proto__]) or [undefined]. *)
Inductive Member : Type :=
  | Number (z : Z)
  | NaN
  | PrototypeMember (name : string)
  | Undefined.

Definition read (resources : gmap string Z) (resourceType : string) : Member :=
  match resources !! resourceType with
  | Some z => Number z
  | None => if inherited_key resourceType then PrototypeMember resourceType else Undefined
  end.

(** [m || 0]: functions and objects are truthy. *)
Definition or_zero (m : Member) : Member :=
  match m with
  | Number z => Number z
  | PrototypeMember name => PrototypeMember name
  | NaN | Undefined => Number 0
  end.

(** [m < amount]: a function or an object converts to [NaN], and every
    comparison with [NaN] is false. *)
Definition less_than (m : Member) (amount : Z) : bool :=
  match m with
  | Number z => (z <? amount)%Z
  | _ => false
  end.

(** [m - amount] *)
Definition minus (m : Member) (amount : Z) : Member :=
  match m with
  | Number z => Number (z - amount)
  | _ => NaN
  end.

(** The [spend] case of the recipe (lines 46 and 54-62 of the resource
    effect): the [success] flag and the value stored, if any. *)
Definition spend (resources : gmap string Z) (resourceType : string) (amount : Z)
  : bool * option Member :=
  let currentAmount := or_zero (read resources resourceType) in
  if less_than currentAmount amount then (false, None)
  else (true, Some (minus currentAmount amount)).

End Inherited.

(** ** Vocabulary of the properties *)

Module Vocabulary.
Import StateModel.








(** A failing result of [e] carries the state [e] was given. *)
Definition fail_safe (e : Effect.Effect) : Prop :=
  forall context,
    success (Effect.execute e context) = false ->
    newState (Effect.execute e context) = gameState context.

(** The effects that decide their result in one step on the state they are
    given: the four primitives, [ParallelEffect] over any children, and
    [ConditionalEffect] and [ContextualEffect] around such an effect, the latter with a
    key that does not replace the context's state. *)
Inductive single_step : Effect.Effect -> Prop :=
| step_damage amount target : single_step (Effect.DamageEffect amount target)
| step_heal amount target : single_step (Effect.HealEffect amount target)
| step_draw count target : single_step (Effect.DrawCardEffect count target)
| step_resource resourceType amount operation target :
    single_step (Effect.ResourceEffect resourceType amount operation target)
| step_parallel effects : single_step (Effect.ParallelEffect effects)
| step_conditional effect predicate :
    single_step effect -> single_step (Effect.ConditionalEffect effect predicate)
| step_contextual effect key value :
    single_step effect -> key <> "gameState"%string ->
    single_step (Effect.ContextualEffect effect key value).

(** The piles of a player after [n] iterations of the draw loop: the cards
    come off the end of the deck and then, if the deck runs out, off the end
    of the discard pile that replaced it. *)
Definition after_draw (n : nat) (p : PlayerState) : PlayerState :=
  let a := length (deck p) in
  let b := length (discardPile p) in
  with_piles p
    (hand p ++ take n (rev (deck p) ++ rev (discardPile p)))
    (if n <=? a then take (a - n) (deck p) else take (a + b - n) (discardPile p))
    (if n <=? a then discardPile p else []).

(** Induction on effect trees, with the hypothesis on every child of a list
    and on every effect a continuation can return. *)
Section EffectInduction.
Variable P : Effect.Effect -> Prop.
Hypothesis Hdamage : forall amount target, P (Effect.DamageEffect amount target).
Hypothesis Hheal : forall amount target, P (Effect.HealEffect amount target).
Hypothesis Hdraw : forall count target, P (Effect.DrawCardEffect count target).
Hypothesis Hresource :
  forall resourceType amount operation target,
    P (Effect.ResourceEffect resourceType amount operation target).
Hypothesis Hcomposite : forall effects, Forall P effects -> P (Effect.CompositeEffect effects).
Hypothesis Hchained :
  forall first chainFn,
    P first -> (forall r, P (chainFn r)) -> P (Effect.ChainedEffect first chainFn).
Hypothesis Hconditional :
  forall effect predicate, P effect -> P (Effect.ConditionalEffect effect predicate).
Hypothesis Hrepeated : forall effect times, P effect -> P (Effect.RepeatedEffect effect times).
Hypothesis Hcontextual :
  forall effect key value, P effect -> P (Effect.ContextualEffect effect key value).
Hypothesis Hsequential :
  forall effects, Forall P effects -> P (Effect.SequentialEffect effects).
Hypothesis Hparallel : forall effects, Forall P effects -> P (Effect.ParallelEffect effects).
Hypothesis Hcustom : forall type description run, P (Effect.Custom type description run).

Fixpoint Effect_nested_ind (e : Effect.Effect) : P e :=
  let children :=
    fix go (l : list Effect.Effect) : Forall P l :=
      match l with
      | [] => @List.Forall_nil _ P
      | x :: rest => @List.Forall_cons _ P x rest (Effect_nested_ind x) (go rest)
      end in
  match e with
  | Effect.DamageEffect amount target => Hdamage amount target
  | Effect.HealEffect amount target => Hheal amount target
  | Effect.DrawCardEffect count target => Hdraw count target
  | Effect.ResourceEffect resourceType amount operation target =>
      Hresource resourceType amount operation target
  | Effect.CompositeEffect effects => Hcomposite effects (children effects)
  | Effect.ChainedEffect first chainFn =>
      Hchained first chainFn (Effect_nested_ind first)
        (fun r => Effect_nested_ind (chainFn r))
  | Effect.ConditionalEffect effect predicate =>
      Hconditional effect predicate (Effect_nested_ind effect)
  | Effect.RepeatedEffect effect times => Hrepeated effect times (Effect_nested_ind effect)
  | Effect.ContextualEffect effect key value =>
      Hcontextual effect key value (Effect_nested_ind effect)
  | Effect.SequentialEffect effects => Hsequential effects (children effects)
  | Effect.ParallelEffect effects => Hparallel effects (children effects)
  | Effect.Custom type description run => Hcustom type description run
  end.
End EffectInduction.

(** The trees built from the eleven classes of the repository alone: no
    other subclass, and no [withContext] that replaces the state the subtree
    runs on. *)
Inductive stock_effect : Effect.Effect -> Prop :=
| stock_damage amount target : stock_effect (Effect.DamageEffect amount target)
| stock_heal amount target : stock_effect (Effect.HealEffect amount target)
| stock_draw count target : stock_effect (Effect.DrawCardEffect count target)
| stock_resource resourceType amount operation target :
    stock_effect (Effect.ResourceEffect resourceType amount operation target)
| stock_composite effects :
    Forall stock_effect effects -> stock_effect (Effect.CompositeEffect effects)
| stock_chained first chainFn :
    stock_effect first -> (forall r, stock_effect (chainFn r)) ->
    stock_effect (Effect.ChainedEffect first chainFn)
| stock_conditional effect predicate :
    stock_effect effect -> stock_effect (Effect.ConditionalEffect effect predicate)
| stock_repeated effect times :
    stock_effect effect -> stock_effect (Effect.RepeatedEffect effect times)
| stock_contextual effect key value :
    stock_effect effect -> key <> "gameState"%string ->
    stock_effect (Effect.ContextualEffect effect key value)
| stock_sequential effects :
    Forall stock_effect effects -> stock_effect (Effect.SequentialEffect effects)
| stock_parallel effects :
    Forall stock_effect effects -> stock_effect (Effect.ParallelEffect effects).

(** Two contexts that differ at most in their ephemeral extras. *)
Definition same_view (c1 c2 : GameContext) : Prop :=
  playerId c1 = playerId c2 /\ gameState c1 = gameState c2.

(** The trees in which nothing can read an extra: as [stock_effect], with
    any key for [withContext], and with predicates that only look at the
    player and the state. *)
Inductive blind_effect : Effect.Effect -> Prop :=
| blind_damage amount target : blind_effect (Effect.DamageEffect amount target)
| blind_heal amount target : blind_effect (Effect.HealEffect amount target)
| blind_draw count target : blind_effect (Effect.DrawCardEffect count target)
| blind_resource resourceType amount operation target :
    blind_effect (Effect.ResourceEffect resourceType amount operation target)
| blind_composite effects :
    Forall blind_effect effects -> blind_effect (Effect.CompositeEffect effects)
| blind_chained first chainFn :
    blind_effect first -> (forall r, blind_effect (chainFn r)) ->
    blind_effect (Effect.ChainedEffect first chainFn)
| blind_conditional effect (predicate : GameContext -> bool) :
    blind_effect effect ->
    (forall c1 c2, same_view c1 c2 -> predicate c1 = predicate c2) ->
    blind_effect (Effect.ConditionalEffect effect predicate)
| blind_repeated effect times :
    blind_effect effect -> blind_effect (Effect.RepeatedEffect effect times)
| blind_contextual effect key value :
    blind_effect effect -> blind_effect (Effect.ContextualEffect effect key value)
| blind_sequential effects :
    Forall blind_effect effects -> blind_effect (Effect.SequentialEffect effects)
| blind_parallel effects :
    Forall blind_effect effects -> blind_effect (Effect.ParallelEffect effects).

(** The [players] mappings [ps] and [ps'] have the same keys in the same
    order, and the players under each key are related by [T]. *)
Definition players_related (T : PlayerState -> PlayerState -> Prop)
  (ps ps' : list (string * PlayerState)) : Prop :=
  Forall2 (fun a b : string * PlayerState => b.1 = a.1 /\ T a.2 b.2) ps ps'.

(** [s'] differs from [s] at most inside players, each one related by [T] to
    what it was. *)
Definition state_related (T : PlayerState -> PlayerState -> Prop) (s s' : GameState) : Prop :=
  players_related T (players s) (players s') /\
  currentPlayer s' = currentPlayer s /\ turn s' = turn s /\ phase s' = phase s.

(** Every run of [e] returns a state related by [T] to the state it was
    given. *)
Definition keeps (T : PlayerState -> PlayerState -> Prop) (e : Effect.Effect) : Prop :=
  forall context,
    state_related T (gameState context) (newState (Effect.execute e context)).

(** The player keeps its id and its maximal health. *)
Definition same_identity (p p' : PlayerState) : Prop :=
  player_id p' = player_id p /\ maxHealth p' = maxHealth p.

(** All the cards a player holds. *)
Definition cards (p : PlayerState) : list Card := hand p ++ deck p ++ discardPile p.

(** The player holds the same cards, in some order and in some piles. *)
Definition same_cards (p p' : PlayerState) : Prop := cards p' ≡ₚ cards p.

(** [Number.MAX_SAFE_INTEGER]; between its opposite and it the integers
    are doubles and their sums and differences are exact. *)
Definition MAX_SAFE_INTEGER : Z := 2 ^ 53 - 1.

Definition safe_integer (z : Z) : Prop :=
  (- MAX_SAFE_INTEGER <= z <= MAX_SAFE_INTEGER)%Z.


(** The resource effect's arithmetic on [current] and [amount] is exact on
    doubles: both, their sum and their difference are safe integers. *)
Definition exact_amounts (current amount : Z) : Prop :=
  safe_integer current /\ safe_integer amount /\
  safe_integer (current + amount) /\ safe_integer (current - amount).

(** [nextInt(min, max)] answers within its bounds. *)
Definition in_bounds {State : Type} (nextInt : State -> Z -> Z -> Z * State) : Prop :=
  forall st min max, (min <= max)%Z -> (min <= (nextInt st min max).1 <= max)%Z.

(** The handlers an [emit] of [event] runs, in order. *)
Definition subscribers {World : Type} (event : string) (bus : SimpleEventBus.Bus World)
  : list (SimpleEventBus.Handler World) :=
  match SimpleEventBus.handlers bus !! event with
  | Some s => default [] (SimpleEventBus.sets bus !! s)
  | None => []
  end.

(** A value that [JSON.stringify] writes in full: no [undefined] in it. *)
Fixpoint storable (v : JsValue) : bool :=
  match v with
  | JUndefined => false
  | JArr items => forallb storable items
  | JObj fields => forallb (fun kv : string * JsValue => storable kv.2) fields
  | _ => true
  end.

(** Induction on values with the hypothesis on every item and field. *)
Section NestedInduction.
Variable P : JsValue -> Prop.
Hypothesis Hundefined : P JUndefined.
Hypothesis Hnull : P JNull.
Hypothesis Hbool : forall b, P (JBool b).
Hypothesis Hnum : forall z, P (JNum z).
Hypothesis Hstr : forall s, P (JStr s).
Hypothesis Harr : forall items, Forall P items -> P (JArr items).
Hypothesis Hobj :
  forall fields, Forall (fun kv : string * JsValue => P kv.2) fields -> P (JObj fields).

Fixpoint JsValue_nested_ind (v : JsValue) : P v :=
  match v with
  | JUndefined => Hundefined
  | JNull => Hnull
  | JBool b => Hbool b
  | JNum z => Hnum z
  | JStr s => Hstr s
  | JArr items =>
      Harr items
        ((fix go (l : list JsValue) : Forall P l :=
            match l with
            | [] => @List.Forall_nil _ P
            | x :: rest => @List.Forall_cons _ P x rest (JsValue_nested_ind x) (go rest)
            end) items)
  | JObj fields =>
      Hobj fields
        ((fix go (l : list (string * JsValue))
            : Forall (fun kv : string * JsValue => P kv.2) l :=
            match l with
            | [] => @List.Forall_nil _ _
            | kv :: rest =>
                @List.Forall_cons _ (fun kv : string * JsValue => P kv.2) kv rest
                  (JsValue_nested_ind kv.2) (go rest)
            end) fields)
  end.
End NestedInduction.

End Vocabulary.

(** ** Sample data *)

Module Samples.
Import StateModel.

Definition fresh_player (name : string) : PlayerState :=
  {| player_id := name; health := 100; maxHealth := 100;
     hand := []; deck := []; discardPile := []; resources := ∅ |}.

(** The state of the scenario: players A and B at 100/100, A acting. *)
Definition duel : GameState :=
  {| players := [("A"%string, fresh_player "A"); ("B"%string, fresh_player "B")];
     currentPlayer := "A"; turn := 1; phase := main |}.

Definition as_A : GameContext :=
  {| playerId := "A"; gameState := duel; extra := [] |}.

(** A carrying 3 mana, as in the resource scenario. *)
Definition poor : GameState :=
  {| players :=
       [("A"%string, with_resources (fresh_player "A") {[ "mana"%string := 3%Z ]});
        ("B"%string, fresh_player "B")];
     currentPlayer := "A"; turn := 1; phase := main |}.

Definition poor_A : GameContext :=
  {| playerId := "A"; gameState := poor; extra := [] |}.

Definition gain_1 : Effect.Effect := Effect.ResourceEffect "mana" 1 OpGain TargetSelf.
Definition spend_5 : Effect.Effect := Effect.ResourceEffect "mana" 5 OpSpend TargetSelf.

(** Effects of other subclasses: one that fails and tags its result with
    metadata, one that only advances the turn counter. *)
Definition tag : list (string * JsValue) := [("code"%string, JNum 7)].

Definition tagged_failure : Effect.Effect :=
  Effect.Custom "custom" "tagged failure"
    (fun context => mkResult false (gameState context) ["tagged"%string] (Some tag)).

Definition next_turn : Effect.Effect :=
  Effect.Custom "custom" "next turn"
    (fun context =>
       let g := gameState context in
       mkResult true
         {| players := players g; currentPlayer := currentPlayer g;
            turn := (turn g + 1)%Z; phase := phase g |}
         ["turn advances"%string] None).

(** A with an empty deck and two cards in the discard pile. *)
Definition strike : Card := mkCard "c1" "Strike" 1 ["attack"%string].
Definition guard : Card := mkCard "c2" "Guard" 1 ["skill"%string].

Definition spent_deck : PlayerState :=
  with_piles (fresh_player "A") [] [] [strike; guard].

Definition late_game : GameContext :=
  {| playerId := "A";
     gameState := {| players := [("A"%string, spent_deck); ("B"%string, fresh_player "B")];
                     currentPlayer := "A"; turn := 9; phase := draw |};
     extra := [] |}.

(** Handlers on a world that lists the handlers that ran: one that returns
    and one that throws after it has left its mark. *)
Definition recorder (ref : nat) : SimpleEventBus.Handler (list nat) :=
  SimpleEventBus.mkHandler ref (fun _ w => (Returned (), w ++ [ref])).

Definition thrower (ref : nat) : SimpleEventBus.Handler (list nat) :=
  SimpleEventBus.mkHandler ref (fun _ w => (Thrown "boom", w ++ [ref])).

(** A closure gone stale: handler 1 subscribes to "turn" and unsubscribes,
    then handler 2 subscribes, and the first closure is still at hand. *)
Definition first_off : SimpleEventBus.Unsubscribe (list nat) :=
  (SimpleEventBus.subscribe "turn" (recorder 1) SimpleEventBus.new_bus).1.

Definition second_subscribed : SimpleEventBus.Bus (list nat) :=
  (SimpleEventBus.subscribe "turn" (recorder 2)
     (SimpleEventBus.unsubscribe first_off
        (SimpleEventBus.subscribe "turn" (recorder 1) SimpleEventBus.new_bus).2)).2.

(** A generator that steps through the range: enough to run [shuffle]. *)
Definition stepping (st : Z) (min max : Z) : Z * Z :=
  ((min + st `mod` (max - min + 1))%Z, (st + 1)%Z).

(** A provider that builds a new logger object at each call, and a heap
    with one [Context] object, at address 0, on which it is registered. *)
Definition new_logger : Registry.Provider :=
  fun n => (Registry.mkService "logger" n, S n).

Definition one_context : Registry.Heap :=
  Registry.mkHeap
    {[ 0 := Registry.mkContext ∅ {[ "logger"%string := new_logger ]} ]} 0.

End Samples.

(** * Properties *)

(** ** The [players] mapping *)

Section Players.
Import StateModel.
Implicit Types (k pid : string) (p : PlayerState) (ps : list (string * PlayerState)).

Lemma with_players_same (g : GameState) : with_players g (players g) = g.
Proof. by destruct g. Qed.

Lemma with_health_same p : with_health p (health p) = p.
Proof. by destruct p. Qed.

Lemma set_player_same k p ps :
  lookup_player k ps = Some p -> set_player k p ps = ps.
Proof.
  induction ps as [|[k' q] rest IH]; simpl; [done|].
  destruct (String.eqb k' k); [by intros [= ->]|].
  intros H. by rewrite IH.
Qed.

Lemma lookup_set_player_eq k p p' ps :
  lookup_player k ps = Some p -> lookup_player k (set_player k p' ps) = Some p'.
Proof.
  induction ps as [|[k' q] rest IH]; simpl; [done|].
  destruct (String.eqb k' k) eqn:E; simpl; rewrite E; auto.
Qed.

Lemma lookup_set_player_ne k k' p' ps :
  k <> k' -> lookup_player k' (set_player k p' ps) = lookup_player k' ps.
Proof.
  intros Hne. induction ps as [|[k0 q] rest IH]; simpl; [done|].
  destruct (String.eqb_spec k0 k) as [->|Hk]; simpl.
  - destruct (String.eqb_spec k k'); [done|reflexivity].
  - destruct (String.eqb k0 k'); [done|apply IH].
Qed.


Lemma find_other_lookup pid k p ps :
  find_other pid ps = Some (k, p) -> lookup_player k ps = Some p /\ k <> pid.
Proof.
  induction ps as [|[k' q] rest IH]; simpl; [done|].
  destruct (String.eqb_spec k' pid) as [->|Hk].
  - intros H. destruct (IH H) as [Hl Hne]. split; [|done].
    destruct (String.eqb_spec pid k); [by subst|done].
  - intros [= -> ->]. by rewrite String.eqb_refl.
Qed.



End Players.

(** ** Damage and heal *)

Section Clamping.
Import StateModel Vocabulary.
Implicit Types (k : string) (p : PlayerState) (ps : list (string * PlayerState)).












Section ClampingOnDoubles.
Import PrimFloat.
Local Open Scope float_scope.


End ClampingOnDoubles.

(** The scenario of the specification: A deals 30 damage to its opponent. *)
Example damage_scenario :
  let r := Effect.execute (Effect.DamageEffect 30 DamageOpponent) Samples.as_A in
  success r = true /\
  messages r = ["B takes 30 damage"%string] /\
  health <$> lookup_player "B" (players (newState r)) = Some 70%Z /\
  lookup_player "A" (players (newState r)) = lookup_player "A" (players Samples.duel).
Proof. vm_compute. done. Qed.

End Clamping.

(** ** The ordered pipelines *)

Section Pipelines.
Import StateModel Effect.
Variable exec : Effect -> GameContext -> EffectResult.
Variable context : GameContext.

Lemma sequential_loop_composite effects currentState allMessages :
  sequential_loop exec context effects currentState allMessages
  = composite_loop exec context effects currentState allMessages.
Proof.
  revert currentState allMessages.
  induction effects as [|effect rest IH]; intros cur msgs; simpl; [done|].
  destruct (success (exec effect (with_gameState context cur))); simpl; [apply IH|done].
Qed.

(** Running a list in two parts: the second part starts from the state and
    the messages of the first, and only if the first part succeeded. *)
Lemma composite_loop_app pre rest currentState allMessages :
  composite_loop exec context (pre ++ rest) currentState allMessages
  = let before := composite_loop exec context pre currentState allMessages in
    if success before
    then composite_loop exec context rest (newState before) (messages before)
    else before.
Proof.
  revert currentState allMessages.
  induction pre as [|effect pre IH]; intros cur msgs; simpl; [done|].
  destruct (success (exec effect (with_gameState context cur))); simpl; [apply IH|done].
Qed.

(** The child after a prefix that succeeded decides how the run goes on. *)
Lemma composite_loop_step pre e post :
  success (composite_loop exec context pre (gameState context) []) = true ->
  composite_loop exec context (pre ++ e :: post) (gameState context) []
  = let before := composite_loop exec context pre (gameState context) [] in
    let r := exec e (with_gameState context (newState before)) in
    if success r
    then composite_loop exec context post (newState r) (messages before ++ messages r)
    else result false (newState r) (messages before ++ messages r).
Proof. intros Hpre. rewrite composite_loop_app. simpl. by rewrite Hpre. Qed.

(** A failed run has a first failing child, after a prefix that succeeded. *)
Lemma composite_loop_fails effects currentState allMessages :
  success (composite_loop exec context effects currentState allMessages) = false ->
  exists pre e post,
    effects = pre ++ e :: post /\
    success (composite_loop exec context pre currentState allMessages) = true /\
    success (exec e (with_gameState context
                       (newState (composite_loop exec context pre currentState allMessages))))
    = false.
Proof.
  revert currentState allMessages.
  induction effects as [|effect rest IH]; intros cur msgs; simpl; [done|].
  destruct (success (exec effect (with_gameState context cur))) eqn:Hfirst; simpl.
  - intros Hfail. destruct (IH _ _ Hfail) as (pre & e & post & -> & Hpre & He).
    exists (effect :: pre), e, post. simpl. rewrite Hfirst. done.
  - intros _. exists [], effect, rest. done.
Qed.

Lemma composite_loop_metadata effects currentState allMessages :
  metadata (composite_loop exec context effects currentState allMessages) = None.
Proof.
  revert currentState allMessages.
  induction effects as [|effect rest IH]; intros cur msgs; simpl; [done|].
  destruct (success (exec effect (with_gameState context cur))); simpl; [apply IH|done].
Qed.

Lemma repeated_loop_metadata effect n currentState allMessages :
  metadata (repeated_loop exec context effect n currentState allMessages) = None.
Proof.
  revert currentState allMessages.
  induction n as [|n IH]; intros cur msgs; simpl; [done|].
  destruct (success (exec effect (with_gameState context cur))); simpl; [apply IH|done].
Qed.

End Pipelines.

Section Combinators.
Import StateModel Effect.

Lemma execute_Composite effects context :
  execute (CompositeEffect effects) context
  = composite_loop execute context effects (gameState context) [].
Proof. reflexivity. Qed.

(** C4: [SequentialEffect] and [CompositeEffect] over the same children
    return the same result in every context. *)
Theorem sequential_equals_composite (effects : list Effect) (context : GameContext) :
  execute (SequentialEffect effects) context = execute (CompositeEffect effects) context.
Proof. simpl. apply sequential_loop_composite. Qed.

(** C3: [CompositeEffect] runs its children in list order, each on the state
    the previous one returned.  The empty list succeeds with the input state
    and no message.  After a prefix [pre] that succeeded, the next child [e]
    runs on the state [pre] produced; if it fails the whole result is the
    failure with [e]'s state and the messages of [pre] followed by [e]'s,
    whatever children [post] follow; if it succeeds, [pre] followed by [e]
    succeeds with [e]'s state and the same messages.  The result is a failure
    exactly when some child fails after a prefix that succeeded. *)
Theorem composite_threads_and_stops (context : GameContext) :
  execute (CompositeEffect []) context = result true (gameState context) [] /\
  (forall pre e post,
     let before := execute (CompositeEffect pre) context in
     let r := execute e (with_gameState context (newState before)) in
     success before = true ->
     (success r = false ->
      execute (CompositeEffect (pre ++ e :: post)) context
      = result false (newState r) (messages before ++ messages r)) /\
     (success r = true ->
      execute (CompositeEffect (pre ++ [e])) context
      = result true (newState r) (messages before ++ messages r))) /\
  (forall effects,
     success (execute (CompositeEffect effects) context) = false <->
     exists pre e post,
       effects = pre ++ e :: post /\
       success (execute (CompositeEffect pre) context) = true /\
       success (execute e (with_gameState context
                             (newState (execute (CompositeEffect pre) context)))) = false).
Proof.
  assert (Hstep : forall pre e post,
    success (execute (CompositeEffect pre) context) = true ->
    execute (CompositeEffect (pre ++ e :: post)) context
    = let before := execute (CompositeEffect pre) context in
      let r := execute e (with_gameState context (newState before)) in
      if success r
      then composite_loop execute context post (newState r) (messages before ++ messages r)
      else result false (newState r) (messages before ++ messages r))
    by (intros; by apply composite_loop_step).
  split; [done|]. split.
  - intros pre e post before r Hbefore. subst before r.
    split; intros Hr; rewrite Hstep by done; cbv zeta; rewrite Hr; reflexivity.
  - intros effects. split.
    + apply composite_loop_fails.
    + intros (pre & e & post & -> & Hpre & He). rewrite Hstep by done.
      cbv zeta. by rewrite He.
Qed.

Lemma composite_threads_and_stops_witness :
  success (execute (CompositeEffect [Samples.gain_1]) Samples.poor_A) = true /\
  success (execute Samples.spend_5
             (with_gameState Samples.poor_A
                (newState (execute (CompositeEffect [Samples.gain_1]) Samples.poor_A)))) = false /\
  messages (execute (CompositeEffect [Samples.gain_1; Samples.spend_5; Samples.gain_1])
              Samples.poor_A)
  = ["A gains 1 mana"%string; "A doesn't have enough mana (4/5)"%string].
Proof.
  assert (Hpre : success (execute (CompositeEffect [Samples.gain_1]) Samples.poor_A) = true)
    by (vm_compute; reflexivity).
  assert (He : success (execute Samples.spend_5
             (with_gameState Samples.poor_A
                (newState (execute (CompositeEffect [Samples.gain_1]) Samples.poor_A)))) = false)
    by (vm_compute; reflexivity).
  split; [exact Hpre|]. split; [exact He|].
  pose proof (proj1 (proj1 (proj2 (composite_threads_and_stops Samples.poor_A))
                       [Samples.gain_1] Samples.spend_5 [Samples.gain_1] Hpre) He) as Hrun.
  simpl app in Hrun. rewrite Hrun. vm_compute. reflexivity.
Defined.

(** The stop rule on [[ok; ok; fail; ok]]: the messages are those of the
    first three children and the fourth leaves no trace. *)
Example composite_stop_rule :
  let ok := Samples.next_turn in
  let r := execute (CompositeEffect [ok; ok; Samples.tagged_failure; ok]) Samples.as_A in
  success r = false /\
  messages r = ["turn advances"; "turn advances"; "tagged"]%string /\
  turn (newState r) = 3%Z.
Proof. vm_compute. done. Qed.

(** *** Parallel composition *)

Lemma spread_merge_right (state next : GameState) : spread_merge state next = next.
Proof. by destruct next. Qed.

(** The fold of the merge ends on the state of the last result. *)
Lemma fold_spread_merge_last (results : list EffectResult) (seed : GameState) :
  fold_left (fun state r => spread_merge state (newState r)) results seed
  = default seed (newState <$> last results).
Proof.
  revert seed. induction results as [|r rest IH]; intros seed; simpl; [done|].
  rewrite IH, spread_merge_right. destruct rest as [|r' rest']; [done|].
  change (last (r :: r' :: rest')) with (last (r' :: rest')).
  destruct (last (r' :: rest')) eqn:Hlast; [done|].
  by apply last_None in Hlast.
Qed.

(** C2: [ParallelEffect] runs every child on the same context.  Its success
    is the conjunction of the children's, its messages are all the children's
    in list order, and its state is, on success, the left-to-right fold of
    the shallow merge over the children's states from the input state, so
    that each top-level field ends with the value of the last child; on
    failure it is the input state. *)
Theorem parallel_merges_in_order (effects : list Effect) (context : GameContext) :
  let results := map (fun e => execute e context) effects in
  let r := execute (ParallelEffect effects) context in
  success r = forallb success results /\
  messages r = concat (map messages results) /\
  (success r = true ->
   newState r
   = fold_left (fun state child => spread_merge state (newState child)) results
       (gameState context) /\
   forall pre e, effects = pre ++ [e] ->
     let last_state := newState (execute e context) in
     players (newState r) = players last_state /\
     currentPlayer (newState r) = currentPlayer last_state /\
     turn (newState r) = turn last_state /\
     phase (newState r) = phase last_state) /\
  (success r = false -> newState r = gameState context).
Proof.
  intros results r. subst r. simpl. fold results.
  split; [done|]. split; [apply flat_map_concat_map|]. split.
  - intros Hok. rewrite Hok. split; [done|]. intros pre e ->.
    rewrite fold_spread_merge_last. subst results.
    rewrite map_app. simpl. rewrite last_snoc. done.
  - intros Hfail. by rewrite Hfail.
Qed.

Lemma parallel_merges_in_order_witness :
  let first := DamageEffect 10 DamageSelf in
  let second := DamageEffect 30 DamageOpponent in
  let r := execute (ParallelEffect [first; second]) Samples.as_A in
  success r = true /\
  players (newState r) = players (newState (execute second Samples.as_A)) /\
  health <$> lookup_player "A" (players (newState r)) = Some 100%Z.
Proof.
  intros first second r.
  assert (Hok : success r = true) by (vm_compute; reflexivity).
  split; [exact Hok|].
  pose proof (proj1 (proj2 (proj2 (parallel_merges_in_order [first; second] Samples.as_A)))
                Hok) as [_ Hlast].
  pose proof (proj1 (Hlast [first] second eq_refl)) as Hplayers.
  split; [exact Hplayers|].
  change (players (newState r)) with
    (players (newState (execute (ParallelEffect [first; second]) Samples.as_A))).
  rewrite Hplayers. vm_compute. reflexivity.
Defined.

(** The merge takes every field from the later child, also one that this
    child did not change: here the first child advances [turn], the second
    only edits [players], and the merged state has the second child's [turn],
    which is the input's. *)
Example parallel_disjoint_fields :
  let r := execute (ParallelEffect [Samples.next_turn; DamageEffect 30 DamageOpponent]) Samples.as_A in
  success r = true /\
  turn (newState (execute Samples.next_turn Samples.as_A)) = 2%Z /\
  turn (newState r) = 1%Z /\
  health <$> lookup_player "B" (players (newState r)) = Some 70%Z.
Proof. vm_compute. done. Qed.

(** *** Metadata *)

(** C10, as amended: the results of [CompositeEffect], [SequentialEffect],
    [ParallelEffect] and [RepeatedEffect] never carry metadata.  When its
    first effect succeeds, [ChainedEffect] returns the second effect's
    success and state, both message lists in order, and no metadata; when
    its first effect fails it returns that effect's result as it is,
    metadata included. *)
Theorem combinators_metadata (context : GameContext) :
  (forall effects, metadata (execute (CompositeEffect effects) context) = None) /\
  (forall effects, metadata (execute (SequentialEffect effects) context) = None) /\
  (forall effects, metadata (execute (ParallelEffect effects) context) = None) /\
  (forall effect times, metadata (execute (RepeatedEffect effect times) context) = None) /\
  (forall first chainFn,
     let firstResult := execute first context in
     let secondResult :=
       execute (chainFn firstResult) (with_gameState context (newState firstResult)) in
     (success firstResult = true ->
      execute (ChainedEffect first chainFn) context
      = mkResult (success secondResult) (newState secondResult)
          (messages firstResult ++ messages secondResult) None) /\
     (success firstResult = false ->
      execute (ChainedEffect first chainFn) context = firstResult)).
Proof.
  split; [intros; apply composite_loop_metadata|].
  split; [intros; simpl; rewrite sequential_loop_composite;
          apply composite_loop_metadata|].
  split; [done|].
  split; [intros; apply repeated_loop_metadata|].
  intros first chainFn firstResult secondResult. subst firstResult secondResult.
  split; intros Hfirst; simpl; rewrite Hfirst; done.
Qed.

Lemma combinators_metadata_witness :
  success (execute Samples.next_turn Samples.as_A) = true /\
  metadata (execute (ChainedEffect Samples.next_turn (fun _ => Samples.tagged_failure))
              Samples.as_A) = None /\
  success (execute Samples.tagged_failure Samples.as_A) = false /\
  execute (ChainedEffect Samples.tagged_failure (fun _ => Samples.next_turn)) Samples.as_A
  = execute Samples.tagged_failure Samples.as_A.
Proof.
  assert (Hok : success (execute Samples.next_turn Samples.as_A) = true) by reflexivity.
  assert (Hko : success (execute Samples.tagged_failure Samples.as_A) = false)
    by reflexivity.
  pose proof (proj2 (proj2 (proj2 (proj2 (combinators_metadata Samples.as_A))))) as Hchain.
  split; [exact Hok|]. split.
  - rewrite (proj1 (Hchain Samples.next_turn (fun _ => Samples.tagged_failure)) Hok).
    reflexivity.
  - split; [exact Hko|].
    exact (proj2 (Hchain Samples.tagged_failure (fun _ => Samples.next_turn)) Hko).
Defined.

(** C10 as stated fails: a [ChainedEffect] whose first effect fails with
    metadata returns that metadata. *)
Lemma chained_keeps_metadata_of_failure :
  metadata (execute (ChainedEffect Samples.tagged_failure (fun _ => Samples.next_turn))
              Samples.as_A) = Some Samples.tag /\
  metadata (execute (ChainedEffect Samples.tagged_failure (fun _ => Samples.next_turn))
              Samples.as_A) <> None.
Proof. split; [reflexivity|discriminate]. Qed.

End Combinators.

(** ** Failing results *)

Section Failures.
Import StateModel Vocabulary Effect.

Lemma with_key_gameState context key value :
  key <> "gameState"%string -> gameState (with_key context key value) = gameState context.
Proof.
  intros Hkey. unfold with_key.
  destruct value as [[| | | |s| |]|g]; try done.
  - by destruct (String.eqb key "playerId").
  - destruct (String.eqb_spec key "gameState"); [done|reflexivity].
Qed.

(** A draft that ends as it started is the base state. *)
Lemma produce_unchanged (g : GameState) k p :
  lookup_player k (players g) = Some p ->
  with_players g (set_player k p (players g)) = g.
Proof. intros H. rewrite (set_player_same _ _ _ H). apply with_players_same. Qed.

Lemma damage_fail_safe amount target : fail_safe (DamageEffect amount target).
Proof.
  intros [pid gs ex]. simpl. unfold DamageEffect.execute. simpl.
  destruct target; simpl; [| |discriminate].
  - by destruct (lookup_player pid (players gs)).
  - destruct (find_other pid (players gs)) as [[k p]|]; [|done].
    by destruct (truthy_string k).
Qed.

Lemma heal_fail_safe amount target : fail_safe (HealEffect amount target).
Proof.
  intros [pid gs ex]. simpl. unfold HealEffect.execute. simpl.
  destruct target; simpl; [| |discriminate].
  - by destruct (lookup_player pid (players gs)).
  - destruct (find_other pid (players gs)) as [[k p]|]; [|done].
    by destruct (truthy_string k).
Qed.

Lemma draw_fail_safe count target : fail_safe (DrawCardEffect count target).
Proof.
  intros context. simpl. unfold DrawCardEffect.execute.
  destruct (resolve_target target context) as [targetId|]; [|done].
  destruct (truthy_string targetId); [|done].
  destruct (lookup_player targetId (players (gameState context))); [|done].
  by destruct (DrawCardEffect.draw_loop _ _ _ _ _) as [[p' n] msgs].
Qed.

Lemma resource_fail_safe resourceType amount operation target :
  fail_safe (ResourceEffect resourceType amount operation target).
Proof.
  intros context. simpl. unfold ResourceEffect.execute.
  destruct (resolve_target target context) as [targetId|]; [|done].
  destruct (truthy_string targetId); [|done].
  destruct (lookup_player targetId (players (gameState context))) as [player|] eqn:Hp;
    [|done].
  unfold ResourceEffect.apply_operation.
  destruct operation; simpl; try discriminate.
  destruct (_ <? _)%Z; simpl; [|discriminate].
  intros _. by apply produce_unchanged.
Qed.

Lemma single_step_fail_safe e : single_step e -> fail_safe e.
Proof.
  induction 1 as [| | | |effects|effect predicate _ IH|effect key value _ IH Hkey].
  - apply damage_fail_safe.
  - apply heal_fail_safe.
  - apply draw_fail_safe.
  - apply resource_fail_safe.
  - intros context. simpl. by destruct (forallb _ _).
  - intros context. simpl. destruct (predicate context); [apply IH|discriminate].
  - intros context. simpl. intros Hfail. rewrite (IH _ Hfail).
    by apply with_key_gameState.
Qed.

(** C1, as amended: a failing result of a primitive, of [ParallelEffect], or
    of [ConditionalEffect] or [ContextualEffect] (with a key other than
    [gameState]) around such an effect carries the state the effect was
    given.  A failing [CompositeEffect] over children with that property has
    a first failing child after a prefix that succeeded, and returns the
    state that prefix produced, the input of the failing child. *)
Theorem failure_returns_step_input :
  (forall e context,
     single_step e ->
     success (execute e context) = false ->
     newState (execute e context) = gameState context) /\
  (forall effects context,
     Forall fail_safe effects ->
     success (execute (CompositeEffect effects) context) = false ->
     exists pre e post,
       effects = pre ++ e :: post /\
       success (execute (CompositeEffect pre) context) = true /\
       success (execute e (with_gameState context
                             (newState (execute (CompositeEffect pre) context)))) = false /\
       newState (execute (CompositeEffect effects) context)
       = newState (execute (CompositeEffect pre) context)).
Proof.
  split.
  - intros e context Hstep. by apply single_step_fail_safe.
  - intros effects context Hsafe Hfail.
    rewrite execute_Composite in Hfail.
    destruct (composite_loop_fails _ _ _ _ _ Hfail) as (pre & e & post & -> & Hpre & He).
    exists pre, e, post. rewrite !execute_Composite. repeat split; try done.
    rewrite composite_loop_step by done. cbv zeta. rewrite He.
    apply Forall_app in Hsafe as [_ Hsafe]. apply Forall_cons in Hsafe as [Hsafe _].
    exact (Hsafe _ He).
Qed.

Lemma failure_returns_step_input_witness :
  single_step Samples.spend_5 /\
  success (execute Samples.spend_5 Samples.poor_A) = false /\
  newState (execute Samples.spend_5 Samples.poor_A) = Samples.poor /\
  exists pre e post,
    [Samples.gain_1; Samples.spend_5] = pre ++ e :: post /\
    newState (execute (CompositeEffect [Samples.gain_1; Samples.spend_5]) Samples.poor_A)
    = newState (execute (CompositeEffect pre) Samples.poor_A).
Proof.
  assert (Hstep : single_step Samples.spend_5) by constructor.
  assert (Hfail : success (execute Samples.spend_5 Samples.poor_A) = false)
    by (vm_compute; reflexivity).
  split; [exact Hstep|]. split; [exact Hfail|]. split.
  - exact (proj1 failure_returns_step_input Samples.spend_5 Samples.poor_A Hstep Hfail).
  - assert (Hsafe : Forall fail_safe [Samples.gain_1; Samples.spend_5]).
    { repeat constructor; intros context;
        apply (proj1 failure_returns_step_input); constructor. }
    assert (Hrun : success (execute (CompositeEffect [Samples.gain_1; Samples.spend_5])
                              Samples.poor_A) = false) by (vm_compute; reflexivity).
    destruct (proj2 failure_returns_step_input _ _ Hsafe Hrun)
      as (pre & e & post & Hsplit & _ & _ & Hstate).
    exists pre, e, post. split; [exact Hsplit|exact Hstate].
Defined.

(** C1 as stated fails: a [CompositeEffect] whose second child fails returns
    the state written by its first child, not its input state. *)
Lemma composite_failure_keeps_earlier_writes :
  let r := execute (CompositeEffect [Samples.gain_1; Samples.spend_5]) Samples.poor_A in
  success r = false /\ newState r <> gameState Samples.poor_A.
Proof.
  split; [vm_compute; reflexivity|].
  intros Heq.
  apply (f_equal (fun g => p ← lookup_player "A" (players g); resources p !! "mana"%string))
    in Heq.
  vm_compute in Heq. discriminate.
Qed.

End Failures.

(** ** The resource effect *)

Section Resources.
Import StateModel Effect.

(** C7, as amended: once the target is resolved, for a resource type that
    is not a member name inherited from [Object.prototype] and integer
    amounts whose sum and difference with the current amount are safe
    integers, [spend] succeeds exactly when the current amount (0 if unset)
    is at least [amount], and then writes the difference; otherwise it fails
    with the state unchanged and one message ending in [(current/amount)].
    [gain] writes the sum, [set] writes [amount]; no operation touches
    another player. *)
Theorem resource_operations (resourceType : string) (amount : Z) (target : PlayerTarget)
  (context : GameContext) (targetId : string) (player : PlayerState) :
  resolve_target target context = Some targetId ->
  truthy_string targetId = true ->
  lookup_player targetId (players (gameState context)) = Some player ->
  Inherited.inherited_key resourceType = false ->
  Vocabulary.exact_amounts (default 0%Z (resources player !! resourceType)) amount ->
  let current := default 0%Z (resources player !! resourceType) in
  let run operation := execute (ResourceEffect resourceType amount operation target) context in
  let target_after operation := lookup_player targetId (players (newState (run operation))) in
  let written v := Some (with_resources player (<[resourceType := v]> (resources player))) in
  (success (run OpSpend) = true <-> (amount <= current)%Z) /\
  ((amount <= current)%Z -> target_after OpSpend = written (current - amount)%Z) /\
  ((current < amount)%Z ->
   success (run OpSpend) = false /\
   newState (run OpSpend) = gameState context /\
   messages (run OpSpend)
   = [targetId +:+ " doesn't have enough " +:+ resourceType
        +:+ " (" +:+ pretty current +:+ "/" +:+ pretty amount +:+ ")"]) /\
  (success (run OpGain) = true /\ target_after OpGain = written (current + amount)%Z) /\
  (success (run OpSet) = true /\ target_after OpSet = written amount) /\
  (forall operation k,
     targetId <> k ->
     lookup_player k (players (newState (run operation)))
     = lookup_player k (players (gameState context))).
Proof.
  intros Hresolve Htruthy Hplayer _ _ current run target_after written.
  assert (Hrun : forall operation,
    run operation
    = let '(ok, p', msg) :=
        ResourceEffect.apply_operation targetId resourceType amount operation player in
      result ok (with_players (gameState context)
                   (set_player targetId p' (players (gameState context)))) [msg]).
  { intros operation. subst run. simpl. unfold ResourceEffect.execute.
    by rewrite Hresolve, Htruthy, Hplayer. }
  assert (Hko : (current < amount)%Z ->
    run OpSpend
    = result false (gameState context)
        [ResourceEffect.short_of targetId resourceType current amount]).
  { intros Hlt. rewrite Hrun.
    unfold ResourceEffect.apply_operation, ResourceEffect.currentAmount.
    fold current. destruct (Z.ltb_spec current amount); [|lia].
    cbv beta iota zeta. by rewrite produce_unchanged. }
  assert (Hok : (amount <= current)%Z ->
    run OpSpend
    = result true
        (with_players (gameState context)
           (set_player targetId
              (ResourceEffect.write resourceType (current - amount)%Z player)
              (players (gameState context))))
        [targetId +:+ " spends " +:+ pretty amount +:+ " " +:+ resourceType]).
  { intros Hle. rewrite Hrun.
    unfold ResourceEffect.apply_operation, ResourceEffect.currentAmount.
    fold current. destruct (Z.ltb_spec current amount); [lia|done]. }
  subst target_after written. cbv beta.
  split; [|split; [|split; [|split; [|split]]]].
  - destruct (Z.ltb_spec current amount) as [Hlt|Hle].
    + rewrite (Hko Hlt). simpl. split; [discriminate|lia].
    + by rewrite (Hok Hle).
  - intros Hle. rewrite (Hok Hle). simpl.
    by apply lookup_set_player_eq with player.
  - intros Hlt. by rewrite (Hko Hlt).
  - rewrite Hrun. simpl. split; [done|].
    by apply lookup_set_player_eq with player.
  - rewrite Hrun. simpl. split; [done|].
    by apply lookup_set_player_eq with player.
  - intros operation k Hne. rewrite Hrun. unfold ResourceEffect.apply_operation.
    destruct operation; simpl; try by apply lookup_set_player_ne.
    destruct (_ <? _)%Z; simpl; by apply lookup_set_player_ne.
Qed.

Lemma resource_operations_witness :
  resolve_target TargetSelf Samples.poor_A = Some "A"%string /\
  truthy_string "A" = true /\
  lookup_player "A" (players Samples.poor)
  = Some (with_resources (Samples.fresh_player "A") {[ "mana"%string := 3%Z ]}) /\
  Inherited.inherited_key "mana" = false /\
  Vocabulary.exact_amounts 3 5 /\
  newState (execute Samples.spend_5 Samples.poor_A) = Samples.poor /\
  messages (execute Samples.spend_5 Samples.poor_A)
  = ["A doesn't have enough mana (3/5)"%string].
Proof.
  assert (Hresolve : resolve_target TargetSelf Samples.poor_A = Some "A"%string)
    by reflexivity.
  assert (Htruthy : truthy_string "A" = true) by reflexivity.
  assert (Hplayer : lookup_player "A" (players (gameState Samples.poor_A))
    = Some (with_resources (Samples.fresh_player "A") {[ "mana"%string := 3%Z ]}))
    by reflexivity.
  assert (Hname : Inherited.inherited_key "mana" = false) by reflexivity.
  assert (Hexact : Vocabulary.exact_amounts 3 5).
  { unfold Vocabulary.exact_amounts, Vocabulary.safe_integer, Vocabulary.MAX_SAFE_INTEGER. lia. }
  pose proof (resource_operations "mana" 5 TargetSelf Samples.poor_A "A" _
                Hresolve Htruthy Hplayer Hname Hexact) as (_ & _ & Hshort & _).
  assert (Hlt : (default 0 (resources (with_resources (Samples.fresh_player "A")
                   {[ "mana"%string := 3%Z ]}) !! "mana"%string) < 5)%Z)
    by (vm_compute; reflexivity).
  destruct (Hshort Hlt) as (_ & Hstate & Hmessages).
  split; [exact Hresolve|]. split; [exact Htruthy|]. split; [exact Hplayer|].
  split; [exact Hname|]. split; [exact Hexact|].
  split; [exact Hstate|].
  etrans; [exact Hmessages|]. vm_compute. reflexivity.
Defined.

Section ResourcesOnDoubles.
Import PrimFloat.
Local Open Scope float_scope.

(** C7 as stated fails on the code, which computes on doubles: with 2^53
    mana, [gain] of 1 stores [currentAmount + this.amount], which is 2^53
    again and not the current amount with 1 added; a [spend] of 1 after it
    succeeds and leaves 2^53 - 1. *)
Lemma gain_rounds_on_doubles :
  let resources : gmap string float := {[ "mana"%string := 9007199254740992 ]} in
  Doubles.gain resources "mana" 1 = resources /\
  Doubles.spend (Doubles.gain resources "mana" 1) "mana" 1
  = (true, {[ "mana"%string := 9007199254740991 ]}).
Proof. split; vm_compute; reflexivity. Qed.

End ResourcesOnDoubles.

(** Under a name that is unset and inherited, [spend] does not see the
    amount 0: with no resources at all, [spend] of 5 [toString] succeeds
    and stores [NaN], where the effect on own properties fails. *)
Lemma spend_on_an_inherited_name :
  Inherited.spend ∅ "toString" 5 = (true, Some Inherited.NaN) /\
  success (execute (ResourceEffect "toString" 5 OpSpend TargetSelf) Samples.as_A) = false.
Proof. split; vm_compute; reflexivity. Qed.

(** The scenario of the specification: 3 mana, spend 5. *)
Example spend_scenario :
  let r := execute Samples.spend_5 Samples.poor_A in
  success r = false /\
  (exists message, messages r = [message] /\ String.index 0 "3/5" message = Some 28) /\
  newState r = Samples.poor.
Proof.
  split; [vm_compute; reflexivity|]. split.
  - eexists. split; vm_compute; reflexivity.
  - apply resource_fail_safe. vm_compute. reflexivity.
Qed.

End Resources.

(** ** The in-memory store *)

Section Storage.
Import StateModel Vocabulary MemoryStorage.

(** The copy of a value without [undefined] is the value. *)
Lemma clone_storable (v : JsValue) : storable v = true -> clone v = v.
Proof.
  induction v as [| | | | |items IH|fields IH] using JsValue_nested_ind;
    simpl; try done.
  - intros Hitems. f_equal. induction IH as [|x rest Hx _ IHrest]; simpl in *; [done|].
    apply andb_prop in Hitems as [Hhead Htail]. by rewrite Hx, IHrest.
  - intros Hfields. f_equal.
    induction IH as [|[k x] rest Hx _ IHrest]; simpl in *; [done|].
    apply andb_prop in Hfields as [Hhead Htail].
    rewrite IHrest by done. rewrite (Hx Hhead). by destruct x.
Qed.

Lemma truthy_defined (v : JsValue) : truthy v = true -> v <> JUndefined.
Proof. by destruct v. Qed.

Lemma deep_copy_storable (v : JsValue) : storable v = true -> deep_copy v = Returned v.
Proof.
  intros Hv. unfold deep_copy. rewrite (clone_storable v Hv). by destruct v.
Qed.

(** The round trip holds for the values that are truthy. *)
Lemma save_then_load (key : string) (v : JsValue) (store : gmap string JsValue) :
  storable v = true -> truthy v = true ->
  exists store',
    save key v store = (Returned (), store') /\
    load key store' = Returned v.
Proof.
  intros Hv Ht. exists (<[key := v]> store). unfold save, load.
  rewrite (deep_copy_storable v Hv), lookup_insert_eq, Ht.
  split; [done|]. by apply deep_copy_storable.
Qed.

(** A key that was never saved loads as [null]. *)
Lemma load_absent (key : string) (store : gmap string JsValue) :
  store !! key = None -> load key store = Returned JNull.
Proof. intros H. unfold load. by rewrite H. Qed.

(** C8 fails on the code: after [save("k", 0)] the key exists, and [load]
    answers [null], the result for an absent key, because it tests the
    stored value for truthiness. *)
Theorem load_loses_falsy_values :
  let '(outcome, store) := save "k" (JNum 0) ∅ in
  outcome = Returned () /\
  store !! "k"%string = Some (JNum 0) /\
  exists_ "k" store = true /\
  load "k" store = Returned JNull /\
  load "k" store <> Returned (JNum 0).
Proof. vm_compute. repeat split; try done. Qed.

End Storage.

(** ** The capability registry *)

Section RegistryFacts.
Import Registry.
Implicit Types (h : Heap) (c : Context) (this r : nat) (id : string).

Lemma new_Context_fresh h : contexts h !! (new_Context h).1 = None.
Proof. simpl. apply not_elem_of_dom, is_fresh. Qed.

(** What [new Context().copyFrom(this)] builds: a copy of the two maps at an
    address that was free, every other object as it was. *)
Lemma fork_spec this h c :
  contexts h !! this = Some c ->
  exists r,
    fork this h = (r, update r (mkContext (services c) (providers c)) h) /\
    contexts h !! r = None /\ r <> this.
Proof.
  intros Hthis. pose proof (new_Context_fresh h) as Hfresh.
  set (r := (new_Context h).1) in *. simpl in r.
  assert (Hne : r <> this) by congruence.
  exists r. split; [|done].
  unfold fork, new_Context. fold r. unfold copyFrom, update. simpl.
  rewrite lookup_insert_eq, lookup_insert_ne, Hthis by done. simpl.
  by rewrite insert_insert_eq, !(right_id_L ∅ (∪)).
Qed.

Lemma register_spec this id (provider : Provider) h c :
  contexts h !! this = Some c ->
  exists r,
    register this id provider h
    = (r, update r (mkContext (services c) (<[id := provider]> (providers c))) h) /\
    contexts h !! r = None /\ r <> this.
Proof.
  intros Hthis. pose proof (new_Context_fresh h) as Hfresh.
  set (r := (new_Context h).1) in *. simpl in r.
  assert (Hne : r <> this) by congruence.
  exists r. split; [|done].
  unfold register, new_Context. fold r. unfold addProvider, copyFrom, update. simpl.
  rewrite lookup_insert_eq, lookup_insert_ne, Hthis by done. simpl.
  rewrite lookup_insert_eq. simpl.
  by rewrite !insert_insert_eq, !(right_id_L ∅ (∪)).
Qed.



(** The methods keep the cache within the registered ids, so that on such
    an object "no provider for [id]" and [has(id) = false] are the same. *)
Lemma lineage_closed_empty : lineage_closed (mkContext ∅ ∅).
Proof. intros id. simpl. rewrite lookup_empty. by intros [? ?]. Qed.

Lemma lineage_closed_register c id (provider : Provider) :
  lineage_closed c ->
  lineage_closed (mkContext (services c) (<[id := provider]> (providers c))).
Proof.
  intros Hc id' Hcached. simpl in *.
  destruct (decide (id = id')) as [->|Hne].
  - rewrite lookup_insert_eq. eauto.
  - rewrite lookup_insert_ne by done. by apply Hc.
Qed.

Lemma lineage_closed_provide this id h c c1 :
  contexts h !! this = Some c -> lineage_closed c ->
  contexts (provide this id h).2 !! this = Some c1 -> lineage_closed c1.
Proof.
  intros Hthis Hc. unfold provide. rewrite Hthis.
  destruct (services c !! id) as [cached|] eqn:Hcached; simpl.
  { rewrite Hthis. by intros [= <-]. }
  destruct (providers c !! id) as [provider|] eqn:Hprovider; simpl.
  - destruct (provider (built h)) as [made n]. simpl. rewrite lookup_insert_eq.
    intros [= <-] id' Hid'. simpl in *.
    destruct (decide (id = id')) as [<-|Hne]; [exists provider; exact Hprovider|].
    rewrite lookup_insert_ne in Hid' by done. by apply Hc.
  - rewrite Hthis. by intros [= <-].
Qed.

Lemma has_unregistered this id h c :
  contexts h !! this = Some c -> lineage_closed c ->
  providers c !! id = None -> has this id h = false.
Proof.
  intros Hthis Hc Hnone. unfold has. rewrite Hthis, Hnone.
  destruct (services c !! id) as [cached|] eqn:Hcached; [|done].
  destruct (Hc id) as [provider Hprovider]; [by rewrite Hcached|congruence].
Qed.



End RegistryFacts.

(** ** Drawing cards *)

Section Drawing.
Import StateModel Vocabulary Effect DrawCardEffect.
Implicit Types (p : PlayerState) (n m : nat) (k : Z) (msgs : list string).
Variable targetId : string.

Lemma snoc_or_nil {A : Type} (l : list A) : l = [] \/ exists d c, l = d ++ [c].
Proof. destruct l as [|x l] using rev_ind; [by left|right; eauto]. Qed.

Lemma is_empty_snoc {A : Type} (d : list A) c : is_empty (d ++ [c]) = false.
Proof. by destruct d. Qed.

Lemma draw_top_snoc p d c :
  deck p = d ++ [c] ->
  draw_top p = with_piles p (hand p ++ [c]) d (discardPile p).
Proof. intros H. unfold draw_top. by rewrite H, last_snoc, removelast_last. Qed.

(** An iteration with a card in the deck moves the last card of the deck to
    the end of the hand. *)
Lemma draw_loop_step_deck n p k msgs d c :
  deck p = d ++ [c] ->
  draw_loop targetId (S n) p k msgs
  = draw_loop targetId n (with_piles p (hand p ++ [c]) d (discardPile p)) (k + 1)%Z msgs.
Proof.
  intros H. simpl. unfold pop_if_any.
  by rewrite (draw_top_snoc _ _ _ H), H, is_empty_snoc.
Qed.

(** An iteration with an empty deck and a discard pile first makes the
    discard pile the deck, in the same order, then draws from it. *)
Lemma draw_loop_step_refill n p k msgs d c :
  deck p = [] -> discardPile p = d ++ [c] ->
  draw_loop targetId (S n) p k msgs
  = draw_loop targetId n (with_piles p (hand p ++ [c]) d []) (k + 1)%Z
      (msgs ++ [targetId +:+ " shuffles discard pile into deck"]).
Proof.
  intros Hdeck Hdiscard. simpl. unfold pop_if_any, refill. rewrite Hdeck. simpl.
  rewrite Hdiscard, is_empty_snoc.
  by rewrite (draw_top_snoc _ d c).
Qed.

(** An iteration with nothing left ends the loop. *)
Lemma draw_loop_step_stop n p k msgs :
  deck p = [] -> discardPile p = [] ->
  draw_loop targetId (S n) p k msgs
  = (p, k, msgs ++ [targetId +:+ " cannot draw - no cards available"]).
Proof. intros Hdeck Hdiscard. simpl. by rewrite Hdeck, Hdiscard. Qed.

Lemma with_piles_same p : with_piles p (hand p) (deck p) (discardPile p) = p.
Proof. by destruct p. Qed.

(** While the deck lasts, [n] iterations take its last [n] cards. *)
Lemma draw_loop_from_deck n m p k msgs :
  n <= length (deck p) ->
  draw_loop targetId (n + m) p k msgs
  = draw_loop targetId m
      (with_piles p (hand p ++ take n (rev (deck p)))
         (take (length (deck p) - n) (deck p)) (discardPile p))
      (k + Z.of_nat n)%Z msgs.
Proof.
  revert p k. induction n as [|n IH]; intros p k Hn.
  - simpl. rewrite app_nil_r, Nat.sub_0_r, firstn_all, with_piles_same.
    by rewrite Z.add_0_r.
  - destruct (snoc_or_nil (deck p)) as [Hnil|(d & c & Hd)].
    { rewrite Hnil in Hn. simpl in Hn. lia. }
    change (S n + m) with (S (n + m)).
    rewrite (draw_loop_step_deck _ _ _ _ _ _ Hd).
    rewrite Hd, length_app in Hn. simpl in Hn.
    rewrite IH by (simpl; lia). simpl.
    rewrite Hd, rev_unit, length_app. simpl.
    replace (length d + 1 - S n) with (length d - n) by lia.
    rewrite (take_app_le d [c]) by lia.
    rewrite <- app_assoc. simpl.
    by replace (k + 1 + Z.of_nat n)%Z with (k + Z.pos (Pos.of_succ_nat n))%Z by lia.
Qed.

(** Without a discard pile the loop empties the deck and then stops. *)
Lemma draw_loop_no_discard n p k msgs :
  discardPile p = [] ->
  draw_loop targetId n p k msgs
  = (with_piles p (hand p ++ take n (rev (deck p)))
       (take (length (deck p) - n) (deck p)) [],
     (k + Z.of_nat (min n (length (deck p))))%Z,
     msgs ++ (if length (deck p) <? n
              then [targetId +:+ " cannot draw - no cards available"] else [])).
Proof.
  intros Hdiscard. destruct (le_lt_dec n (length (deck p))) as [Hle|Hlt].
  - rewrite <- (Nat.add_0_r n) at 1. rewrite draw_loop_from_deck by done. simpl.
    rewrite Hdiscard, Nat.min_l by done.
    destruct (Nat.ltb_spec (length (deck p)) n); [lia|]. by rewrite app_nil_r.
  - replace n with (length (deck p) + S (n - length (deck p) - 1)) at 1 by lia.
    rewrite draw_loop_from_deck by done.
    rewrite draw_loop_step_stop by (simpl; rewrite ?Nat.sub_diag; done).
    rewrite Nat.sub_diag, Nat.min_r by lia.
    rewrite (take_ge (rev (deck p)) n) by (rewrite length_rev; lia).
    rewrite (take_ge (rev (deck p)) (length (deck p))) by (rewrite length_rev; lia).
    replace (length (deck p) - n) with 0 by lia. simpl.
    destruct (Nat.ltb_spec (length (deck p)) n); [|lia]. by rewrite Hdiscard.
Qed.

(** The loop in closed form: the piles, the number of cards drawn and the
    messages after [n] iterations. *)
Lemma draw_loop_closed n p k msgs :
  let a := length (deck p) in
  let b := length (discardPile p) in
  draw_loop targetId n p k msgs
  = (after_draw n p,
     (k + Z.of_nat (min n (a + b)))%Z,
     msgs
     ++ (if (a <? n) && (0 <? b)
         then [targetId +:+ " shuffles discard pile into deck"] else [])
     ++ (if a + b <? n
         then [targetId +:+ " cannot draw - no cards available"] else [])).
Proof.
  intros a b. unfold after_draw. fold a b.
  destruct (Nat.leb_spec n a) as [Hle|Hlt].
  - rewrite <- (Nat.add_0_r n) at 1. rewrite draw_loop_from_deck by done. simpl.
    rewrite take_app_le by (rewrite length_rev; done).
    rewrite Nat.min_l by lia.
    destruct (Nat.ltb_spec a n); [lia|]. destruct (Nat.ltb_spec (a + b) n); [lia|].
    simpl. by rewrite app_nil_r.
  - destruct (snoc_or_nil (discardPile p)) as [Hnil|(d & c & Hd)].
    + rewrite (draw_loop_no_discard _ _ _ _ Hnil). fold a.
      assert (Hb : b = 0) by (subst b; by rewrite Hnil). rewrite Hb, Hnil.
      rewrite Nat.add_0_r, Bool.andb_false_r. simpl. rewrite app_nil_r.
      replace (a - n) with 0 by lia. by rewrite take_0.
    + assert (Hb : b = length d + 1) by (subst b; by rewrite Hd, length_app).
      replace n with (a + S (n - a - 1)) at 1 by lia.
      rewrite draw_loop_from_deck by done. fold a.
      rewrite (draw_loop_step_refill _ _ _ _ d c)
        by (simpl; rewrite ?Nat.sub_diag; done).
      rewrite draw_loop_no_discard by done. simpl.
      rewrite Hd, rev_unit.
      rewrite (take_ge (rev (deck p))) by (rewrite length_rev; lia).
      destruct (Nat.ltb_spec a n); [|lia].
      destruct (Nat.ltb_spec 0 b); [|lia]. simpl.
      f_equal; [f_equal|].
      * f_equal.
        -- rewrite <- !app_assoc. f_equal.
           rewrite take_app_ge by (rewrite length_rev; lia). f_equal.
           rewrite length_rev. fold a.
           replace (n - a) with (S (n - a - 1)) by lia.
           replace (S (n - a - 1) - 1) with (n - a - 1) by lia. done.
        -- rewrite Hb. replace (a + (length d + 1) - n) with (length d - (n - a - 1))
             by lia.
           by rewrite take_app_le by lia.
      * rewrite Hb. lia.
      * rewrite <- app_assoc. f_equal. simpl. f_equal.
        rewrite Hb.
        destruct (Nat.ltb_spec (length d) (n - a - 1));
          destruct (Nat.ltb_spec (a + (length d + 1)) n); done || lia.
Qed.

End Drawing.

Section DrawCardEffect.
Import StateModel Vocabulary Effect.

(** C6: once the target is resolved, [DrawCardEffect] succeeds.  After
    [count] iterations the hand has gained, in order, the cards taken off the
    end of the deck and then off the end of the discard pile that replaced
    it; the discard pile is moved, in its order, only if the deck ran out
    with iterations left, and at most once (one "shuffles" message); when
    both ran out with iterations left the loop stops with one "cannot draw"
    message and no further card moved. *)
Theorem draw_card_never_fails (count : Z) (target : PlayerTarget) (context : GameContext)
  (targetId : string) (player : PlayerState) :
  resolve_target target context = Some targetId ->
  truthy_string targetId = true ->
  lookup_player targetId (players (gameState context)) = Some player ->
  let r := execute (DrawCardEffect count target) context in
  let n := Z.to_nat count in
  let a := length (deck player) in
  let b := length (discardPile player) in
  let moved := min n (a + b) in
  success r = true /\
  (exists p',
     lookup_player targetId (players (newState r)) = Some p' /\
     hand p' = hand player ++ take n (rev (deck player) ++ rev (discardPile player)) /\
     deck p' = (if n <=? a then take (a - n) (deck player)
                else take (a + b - n) (discardPile player)) /\
     discardPile p' = (if n <=? a then discardPile player else [])) /\
  messages r
  = (if (a <? n) && (0 <? b)
     then [targetId +:+ " shuffles discard pile into deck"] else [])
    ++ (if a + b <? n
        then [targetId +:+ " cannot draw - no cards available"] else [])
    ++ (if 0 <? moved
        then [targetId +:+ " draws " +:+ pretty (Z.of_nat moved) +:+ " card"
                +:+ (if 1 <? moved then "s" else "")]
        else []).
Proof.
  intros Hresolve Htruthy Hplayer r n a b moved.
  assert (Hrun : r
    = result true
        (with_players (gameState context)
           (set_player targetId (after_draw n player) (players (gameState context))))
        (([] ++ (if (a <? n) && (0 <? b)
                 then [targetId +:+ " shuffles discard pile into deck"] else [])
             ++ (if a + b <? n
                 then [targetId +:+ " cannot draw - no cards available"] else []))
         ++ DrawCardEffect.draws targetId (0 + Z.of_nat moved)%Z)).
  { subst r. simpl. unfold DrawCardEffect.execute.
    rewrite Hresolve, Htruthy, Hplayer. fold n.
    by rewrite (draw_loop_closed targetId n player 0%Z []). }
  rewrite Hrun. simpl. split; [done|]. split.
  - exists (after_draw n player). split; [|done].
    by apply lookup_set_player_eq with player.
  - rewrite <- app_assoc, Z.add_0_l. do 2 f_equal. unfold DrawCardEffect.draws.
    destruct (Nat.ltb_spec 0 moved); destruct (Z.ltb_spec 0 (Z.of_nat moved));
      try lia; [|done].
    destruct (Nat.ltb_spec 1 moved); destruct (Z.ltb_spec 1 (Z.of_nat moved));
      try lia; done.
Qed.

Lemma draw_card_never_fails_witness :
  resolve_target TargetSelf Samples.late_game = Some "A"%string /\
  truthy_string "A" = true /\
  lookup_player "A" (players (gameState Samples.late_game)) = Some Samples.spent_deck /\
  let r := execute (DrawCardEffect 3 TargetSelf) Samples.late_game in
  success r = true /\
  messages r
  = ["A shuffles discard pile into deck"; "A cannot draw - no cards available";
     "A draws 2 cards"]%string.
Proof.
  assert (Hresolve : resolve_target TargetSelf Samples.late_game = Some "A"%string)
    by reflexivity.
  assert (Htruthy : truthy_string "A" = true) by reflexivity.
  assert (Hplayer : lookup_player "A" (players (gameState Samples.late_game))
                    = Some Samples.spent_deck) by reflexivity.
  pose proof (draw_card_never_fails 3 TargetSelf Samples.late_game "A" _
                Hresolve Htruthy Hplayer) as (Hok & _ & Hmessages).
  split; [exact Hresolve|]. split; [exact Htruthy|]. split; [exact Hplayer|].
  split; [exact Hok|]. etrans; [exact Hmessages|]. vm_compute. reflexivity.
Defined.

(** One refill, then the cards come off the end of the former discard pile. *)
Example draw_after_refill :
  let r := execute (DrawCardEffect 2 TargetSelf) Samples.late_game in
  success r = true /\
  messages r = ["A shuffles discard pile into deck"; "A draws 2 cards"]%string /\
  hand <$> lookup_player "A" (players (newState r))
  = Some [Samples.guard; Samples.strike].
Proof. vm_compute. done. Qed.

(** Nothing to draw: success, no card moved, one message. *)
Example draw_from_nothing :
  let r := execute (DrawCardEffect 2 TargetOpponent) Samples.late_game in
  success r = true /\
  messages r = ["B cannot draw - no cards available"%string] /\
  players (newState r) = players (gameState Samples.late_game).
Proof. vm_compute. done. Qed.

End DrawCardEffect.

(** ** What the stock effects leave alone *)

Section Frames.
Import StateModel Vocabulary Effect.
Implicit Types (k : string) (p : PlayerState) (ps : list (string * PlayerState)).

(** A relation on players that holds along every write of a primitive. *)
Variable T : PlayerState -> PlayerState -> Prop.
Hypothesis T_refl : forall p, T p p.
Hypothesis T_trans : forall p q r, T p q -> T q r -> T p r.
Hypothesis T_hit : forall amount p, T p (DamageEffect.hit amount p).
Hypothesis T_mend : forall amount p, T p (HealEffect.mend amount p).
Hypothesis T_draw :
  forall targetId n p cardsDrawn msgs,
    T p (DrawCardEffect.draw_loop targetId n p cardsDrawn msgs).1.1.
Hypothesis T_write : forall resourceType v p, T p (ResourceEffect.write resourceType v p).

Lemma players_related_refl ps : players_related T ps ps.
Proof. induction ps; constructor; auto. Qed.

Lemma players_related_trans ps1 ps2 ps3 :
  players_related T ps1 ps2 -> players_related T ps2 ps3 -> players_related T ps1 ps3.
Proof.
  intros H12. revert ps3. induction H12 as [|a b l1 l2 [Hk Hab] _ IH]; intros ps3 H23.
  - inversion H23. constructor.
  - inversion H23 as [|b' c l2' l3 [Hk' Hbc] Hrest]; subst. constructor; [|by apply IH].
    split; [congruence|by eapply T_trans].
Qed.

Lemma players_related_write k p p' ps :
  lookup_player k ps = Some p -> T p p' -> players_related T ps (set_player k p' ps).
Proof.
  intros Hl Hp. induction ps as [|[k0 q] rest IH]; simpl in *; [done|].
  destruct (String.eqb k0 k).
  - injection Hl as ->. constructor; [done|apply players_related_refl].
  - constructor; [done|by apply IH].
Qed.

Lemma players_related_sweep (f : PlayerState -> PlayerState) ps :
  (forall p, T p (f p)) -> players_related T ps (map (fun kp => (kp.1, f kp.2)) ps).
Proof. intros Hf. induction ps as [|[k0 q] rest IH]; constructor; auto. Qed.

Lemma state_related_refl (s : GameState) : state_related T s s.
Proof. split; [apply players_related_refl|done]. Qed.

Lemma state_related_trans (s1 s2 s3 : GameState) :
  state_related T s1 s2 -> state_related T s2 s3 -> state_related T s1 s3.
Proof.
  intros (Hp & Hc & Ht & Hph) (Hp' & Hc' & Ht' & Hph').
  split; [by eapply players_related_trans|]. repeat split; congruence.
Qed.

Lemma state_related_write (g : GameState) k p p' :
  lookup_player k (players g) = Some p -> T p p' ->
  state_related T g (with_players g (set_player k p' (players g))).
Proof. intros Hl Hp. split; [by apply players_related_write with p|done]. Qed.

Lemma damage_related amount target context :
  state_related T (gameState context)
    (newState (DamageEffect.execute amount target context)).
Proof.
  unfold DamageEffect.execute. destruct target; simpl.
  - destruct (lookup_player _ _) eqn:Hl; simpl;
      [by apply state_related_write with p|apply state_related_refl].
  - destruct (find_other _ _) as [[k p]|] eqn:Ho; simpl; [|apply state_related_refl].
    destruct (truthy_string k); simpl; [|apply state_related_refl].
    apply state_related_write with p; [|done]. by eapply find_other_lookup.
  - split; [by apply players_related_sweep|done].
Qed.

Lemma heal_related amount target context :
  state_related T (gameState context)
    (newState (HealEffect.execute amount target context)).
Proof.
  unfold HealEffect.execute. destruct target; simpl.
  - destruct (lookup_player _ _) eqn:Hl; simpl;
      [by apply state_related_write with p|apply state_related_refl].
  - destruct (find_other _ _) as [[k p]|] eqn:Ho; simpl; [|apply state_related_refl].
    destruct (truthy_string k); simpl; [|apply state_related_refl].
    apply state_related_write with p; [|done]. by eapply find_other_lookup.
  - split; [by apply players_related_sweep|done].
Qed.

Lemma draw_related count target context :
  state_related T (gameState context)
    (newState (DrawCardEffect.execute count target context)).
Proof.
  unfold DrawCardEffect.execute.
  destruct (resolve_target target context) as [k|]; [|apply state_related_refl].
  destruct (truthy_string k); [|apply state_related_refl].
  destruct (lookup_player k _) as [p|] eqn:Hl; [|apply state_related_refl].
  pose proof (T_draw k (Z.to_nat count) p 0%Z []) as Hd.
  destruct (DrawCardEffect.draw_loop _ _ _ _ _) as [[p' n] msgs]. simpl in *.
  by apply state_related_write with p.
Qed.

Lemma resource_related resourceType amount operation target context :
  state_related T (gameState context)
    (newState (ResourceEffect.execute resourceType amount operation target context)).
Proof.
  unfold ResourceEffect.execute.
  destruct (resolve_target target context) as [k|]; [|apply state_related_refl].
  destruct (truthy_string k); [|apply state_related_refl].
  destruct (lookup_player k _) as [p|] eqn:Hl; [|apply state_related_refl].
  unfold ResourceEffect.apply_operation.
  destruct operation; simpl; try (by apply state_related_write with p).
  destruct (_ <? _)%Z; simpl; by apply state_related_write with p.
Qed.

Lemma composite_loop_related context effects currentState allMessages :
  Forall (keeps T) effects ->
  state_related T currentState
    (newState (composite_loop execute context effects currentState allMessages)).
Proof.
  intros Hall. revert currentState allMessages.
  induction Hall as [|e rest He _ IH]; intros cur msgs; simpl; [apply state_related_refl|].
  pose proof (He (with_gameState context cur)) as Hstep. simpl in Hstep.
  destruct (success _); simpl; [|done].
  eapply state_related_trans; [exact Hstep|apply IH].
Qed.

Lemma repeated_loop_related context e n currentState allMessages :
  keeps T e ->
  state_related T currentState
    (newState (repeated_loop execute context e n currentState allMessages)).
Proof.
  intros He. revert currentState allMessages.
  induction n as [|n IH]; intros cur msgs; simpl; [apply state_related_refl|].
  pose proof (He (with_gameState context cur)) as Hstep. simpl in Hstep.
  destruct (success _); simpl; [|done].
  eapply state_related_trans; [exact Hstep|apply IH].
Qed.

Lemma stock_effect_related e : stock_effect e -> keeps T e.
Proof.
  induction e as [| | | |effects IH|first chainFn IHfirst IHnext|effect predicate IH
                  |effect times IH|effect key value IH|effects IH|effects IH|]
    using Effect_nested_ind; intros Hstock context;
    inversion Hstock as [| | | |? Hall|? ? Hf Hn|? ? He|? ? He|? ? ? He Hkey|? Hall|? Hall];
    subst.
  - apply damage_related.
  - apply heal_related.
  - apply draw_related.
  - apply resource_related.
  - apply composite_loop_related.
    apply Forall_forall. intros e He.
    rewrite Forall_forall in IH. rewrite Forall_forall in Hall. by apply IH, Hall.
  - simpl. destruct (success (execute first context)) eqn:Hfirst; simpl.
    + eapply state_related_trans; [by apply IHfirst|].
      by apply (IHnext _ (Hn _) (with_gameState context _)).
    + by apply IHfirst.
  - simpl. destruct (predicate context); [by apply IH|apply state_related_refl].
  - by apply repeated_loop_related, IH.
  - simpl. rewrite <- (with_key_gameState context key value) by done. by apply IH.
  - simpl. rewrite sequential_loop_composite. apply composite_loop_related.
    apply Forall_forall. intros e He.
    rewrite Forall_forall in IH. rewrite Forall_forall in Hall. by apply IH, Hall.
  - simpl. destruct (forallb _ _); simpl; [|apply state_related_refl].
    rewrite fold_spread_merge_last.
    destruct (last _) as [r|] eqn:Hlast; simpl; [|apply state_related_refl].
    apply last_Some in Hlast as [pre Hpre].
    assert (Hin : r ∈ map (fun effect => execute effect context) effects)
      by (rewrite Hpre; set_solver).
    apply list_elem_of_In, in_map_iff in Hin as (e & <- & He).
    rewrite Forall_forall in IH. rewrite Forall_forall in Hall.
    apply list_elem_of_In in He. by apply IH, Hall.
Qed.

End Frames.

Section StockInvariants.
Import StateModel Vocabulary Effect.

Lemma draw_loop_cards targetId n (p : PlayerState) cardsDrawn msgs :
  same_cards p (DrawCardEffect.draw_loop targetId n p cardsDrawn msgs).1.1.
Proof.
  unfold same_cards. revert p cardsDrawn msgs.
  induction n as [|n IH]; intros p k msgs; [done|].
  destruct (snoc_or_nil (deck p)) as [Hnil|(d & c & Hd)].
  - destruct (snoc_or_nil (discardPile p)) as [Hnone|(d & c & Hd)].
    + by rewrite draw_loop_step_stop.
    + rewrite (draw_loop_step_refill _ _ _ _ _ d c) by done. rewrite IH.
      unfold cards. simpl. rewrite Hnil, Hd. simpl.
      rewrite <- !app_assoc, app_nil_r. apply Permutation_app_head. simpl.
      by rewrite Permutation_cons_append.
  - rewrite (draw_loop_step_deck _ _ _ _ _ d c) by done. rewrite IH.
    unfold cards. simpl. rewrite Hd.
    rewrite <- !app_assoc. apply Permutation_app_head. simpl.
    by rewrite Permutation_middle.
Qed.

(** X1: an effect built from the repository's classes never adds, removes,
    renames or reorders a player, never changes [currentPlayer], [turn] or
    [phase], and never changes a player's id or maximal health. *)
Theorem stock_effects_keep_roster (e : Effect) (context : GameContext) :
  stock_effect e ->
  state_related same_identity (gameState context) (newState (execute e context)).
Proof.
  intros Hstock. revert context.
  apply (stock_effect_related same_identity); unfold same_identity; try done.
  - intros p q r [? ?] [? ?]. split; congruence.
  - intros targetId n p k msgs. by rewrite draw_loop_closed.
Qed.

Lemma stock_effects_keep_roster_witness :
  let e := CompositeEffect
             [DrawCardEffect 3 TargetSelf;
              ParallelEffect [DamageEffect 10 DamageAll; HealEffect 5 HealAlly];
              RepeatedEffect (ResourceEffect "mana" 2 OpGain TargetOpponent) 2] in
  stock_effect e /\
  map fst (players (newState (execute e Samples.late_game))) = ["A"; "B"]%string /\
  turn (newState (execute e Samples.late_game)) = 9%Z.
Proof.
  intros e.
  assert (Hstock : stock_effect e) by (repeat constructor).
  destruct (stock_effects_keep_roster e Samples.late_game Hstock)
    as (Hplayers & _ & Hturn & _).
  split; [exact Hstock|]. split; [|exact Hturn].
  assert (Hkeys : forall ps ps',
    players_related same_identity ps ps' -> map fst ps' = map fst ps).
  { induction 1 as [|a b l l' [Hk _] _ IH]; simpl; congruence. }
  rewrite (Hkeys _ _ Hplayers). reflexivity.
Defined.

(** X2: an effect built from the repository's classes, with no
    [withContext] that overrides [gameState], never creates, destroys or
    hands over a card: under each key the player's hand, deck and discard
    pile together hold the same cards as before. *)
Theorem stock_effects_conserve_cards (e : Effect) (context : GameContext) :
  stock_effect e ->
  players_related same_cards (players (gameState context))
    (players (newState (execute e context))).
Proof.
  intros Hstock.
  apply (stock_effect_related same_cards); unfold same_cards; try done.
  - intros p q r Hpq Hqr. by rewrite Hqr.
  - apply draw_loop_cards.
Qed.

Lemma stock_effects_conserve_cards_witness :
  let e := SequentialEffect [DrawCardEffect 3 TargetSelf; DamageEffect 10 DamageAll] in
  stock_effect e /\
  players_related same_cards (players (gameState Samples.late_game))
    (players (newState (execute e Samples.late_game))) /\
  hand <$> lookup_player "A" (players (newState (execute e Samples.late_game)))
  = Some [Samples.guard; Samples.strike].
Proof.
  intros e.
  assert (Hstock : stock_effect e) by (repeat constructor).
  split; [exact Hstock|]. split.
  - exact (stock_effects_conserve_cards e Samples.late_game Hstock).
  - vm_compute. reflexivity.
Defined.

End StockInvariants.

(** ** Ephemeral context keys *)

Section Blindness.
Import StateModel Vocabulary Effect.

Lemma with_gameState_same_view c1 c2 g :
  same_view c1 c2 -> same_view (with_gameState c1 g) (with_gameState c2 g).
Proof. intros [Hp _]. by split. Qed.

Lemma with_key_same_view c1 c2 key value :
  same_view c1 c2 -> same_view (with_key c1 key value) (with_key c2 key value).
Proof.
  intros [Hp Hg]. unfold with_key.
  destruct value as [[| | | |s| |]|g]; try by split.
  - destruct (String.eqb key "playerId"); by split.
  - destruct (String.eqb key "gameState"); by split.
Qed.

Lemma with_key_extra context key value :
  key <> "playerId"%string -> key <> "gameState"%string ->
  same_view (with_key context key value) context.
Proof.
  intros Hp Hg. unfold with_key.
  destruct value as [[| | | |s| |]|g]; try by split.
  - destruct (String.eqb_spec key "playerId"); [done|by split].
  - destruct (String.eqb_spec key "gameState"); [done|by split].
Qed.

(** The primitives read the player and the state only. *)
Lemma primitives_same_view c1 c2 :
  same_view c1 c2 ->
  (forall amount target,
     DamageEffect.execute amount target c1 = DamageEffect.execute amount target c2) /\
  (forall amount target,
     HealEffect.execute amount target c1 = HealEffect.execute amount target c2) /\
  (forall count target,
     DrawCardEffect.execute count target c1 = DrawCardEffect.execute count target c2) /\
  (forall resourceType amount operation target,
     ResourceEffect.execute resourceType amount operation target c1
     = ResourceEffect.execute resourceType amount operation target c2).
Proof.
  destruct c1 as [p1 g1 x1], c2 as [p2 g2 x2]. intros [Hp Hg]. simpl in *. subst.
  repeat split; intros;
    unfold DamageEffect.execute, HealEffect.execute, DrawCardEffect.execute,
      ResourceEffect.execute, resolve_target; reflexivity.
Qed.

Lemma composite_loop_same_view c1 c2 effects currentState allMessages :
  same_view c1 c2 ->
  Forall (fun e => forall a b, same_view a b -> execute e a = execute e b) effects ->
  composite_loop execute c1 effects currentState allMessages
  = composite_loop execute c2 effects currentState allMessages.
Proof.
  intros Hview Hall. revert currentState allMessages.
  induction Hall as [|e rest He _ IH]; intros cur msgs; simpl; [done|].
  rewrite (He _ _ (with_gameState_same_view c1 c2 cur Hview)).
  destruct (success _); [apply IH|done].
Qed.

Lemma repeated_loop_same_view c1 c2 e n currentState allMessages :
  same_view c1 c2 ->
  (forall a b, same_view a b -> execute e a = execute e b) ->
  repeated_loop execute c1 e n currentState allMessages
  = repeated_loop execute c2 e n currentState allMessages.
Proof.
  intros Hview He. revert currentState allMessages.
  induction n as [|n IH]; intros cur msgs; simpl; [done|].
  rewrite (He _ _ (with_gameState_same_view c1 c2 cur Hview)).
  destruct (success _); [apply IH|done].
Qed.

Lemma blind_effect_same_view e :
  blind_effect e -> forall c1 c2, same_view c1 c2 -> execute e c1 = execute e c2.
Proof.
  induction e as [| | | |effects IH|first chainFn IHfirst IHnext|effect predicate IH
                  |effect times IH|effect key value IH|effects IH|effects IH|]
    using Effect_nested_ind; intros Hblind c1 c2 Hview;
    inversion Hblind as [| | | |? Hall|? ? Hf Hn|? ? He Hpred|? ? He|? ? ? He|? Hall|? Hall];
    subst; simpl.
  - by apply primitives_same_view.
  - by apply primitives_same_view.
  - by apply primitives_same_view.
  - by apply primitives_same_view.
  - destruct Hview as [Hp Hg]. rewrite Hg. apply composite_loop_same_view; [done|].
    apply Forall_forall. intros e He.
    rewrite Forall_forall in IH. rewrite Forall_forall in Hall. by apply IH, Hall.
  - rewrite (IHfirst Hf c1 c2 Hview).
    destruct (success (execute first c2)); simpl; [|done].
    by rewrite (IHnext _ (Hn _) _ _
                  (with_gameState_same_view c1 c2 (newState (execute first c2)) Hview)).
  - rewrite (Hpred c1 c2 Hview), (IH He c1 c2 Hview). by destruct Hview as [_ ->].
  - destruct Hview as [Hp Hg]. rewrite Hg. apply repeated_loop_same_view; [done|].
    by apply IH.
  - apply IH; [done|]. by apply with_key_same_view.
  - destruct Hview as [Hp Hg]. rewrite Hg. rewrite !sequential_loop_composite.
    apply composite_loop_same_view; [done|].
    apply Forall_forall. intros e He.
    rewrite Forall_forall in IH. rewrite Forall_forall in Hall. by apply IH, Hall.
  - assert (Hmap : map (fun effect => execute effect c1) effects
                   = map (fun effect => execute effect c2) effects).
    { apply map_ext_in. intros e He.
      rewrite Forall_forall in IH. rewrite Forall_forall in Hall.
      apply list_elem_of_In in He. by apply IH; [|apply Hall|]. }
    rewrite Hmap. by destruct Hview as [_ ->].
Qed.

(** X3: an effect in which nothing reads an ephemeral key (primitives, list
    combinators, repetition, chaining, and conditions on the player and the
    state) returns the same result in two contexts with the same player and
    state; so [withContext] with a key other than [playerId] and [gameState]
    does not change what such an effect returns. *)
Theorem ephemeral_key_is_invisible (e : Effect) :
  blind_effect e ->
  (forall c1 c2, same_view c1 c2 -> execute e c1 = execute e c2) /\
  (forall key value context,
     key <> "playerId"%string -> key <> "gameState"%string ->
     execute (withContext e key value) context = execute e context).
Proof.
  intros Hblind. split; [by apply blind_effect_same_view|].
  intros key value context Hp Hg. simpl.
  apply blind_effect_same_view; [done|]. by apply with_key_extra.
Qed.

Lemma ephemeral_key_is_invisible_witness :
  let e := CompositeEffect [DamageEffect 30 DamageOpponent; HealEffect 5 HealSelf] in
  blind_effect e /\
  execute (withContext e "combo" (CtxData (JNum 2))) Samples.as_A
  = execute e Samples.as_A.
Proof.
  intros e.
  assert (Hblind : blind_effect e) by (repeat constructor).
  split; [exact Hblind|].
  apply (proj2 (ephemeral_key_is_invisible e Hblind)); discriminate.
Defined.

End Blindness.

(** ** How the combinators compose *)

Section Algebra.
Import StateModel Effect.

Lemma repeated_loop_replicate exec context e n currentState allMessages :
  repeated_loop exec context e n currentState allMessages
  = composite_loop exec context (replicate n e) currentState allMessages.
Proof.
  revert currentState allMessages.
  induction n as [|n IH]; intros cur msgs; simpl; [done|].
  destruct (success _); [apply IH|done].
Qed.

(** X4: [effect.repeat(times)] returns what the composite of [times] copies
    of the effect returns; with a count of zero or less that is success, the
    input state and no message. *)
Theorem repeat_is_composite_of_copies (e : Effect) (times : Z) (context : GameContext) :
  execute (repeat e times) context
  = execute (all (replicate (Z.to_nat times) e)) context /\
  ((times <= 0)%Z ->
   execute (repeat e times) context = result true (gameState context) []).
Proof.
  split; [apply repeated_loop_replicate|].
  intros Hle. simpl. by replace (Z.to_nat times) with 0 by lia.
Qed.

Lemma repeat_is_composite_of_copies_witness :
  (-2 <= 0)%Z /\
  execute (repeat Samples.gain_1 (-2)) Samples.poor_A = result true Samples.poor [] /\
  execute (repeat Samples.gain_1 3) Samples.poor_A
  = execute (all [Samples.gain_1; Samples.gain_1; Samples.gain_1]) Samples.poor_A.
Proof.
  assert (Hle : (-2 <= 0)%Z) by lia.
  split; [exact Hle|]. split.
  - exact (proj2 (repeat_is_composite_of_copies Samples.gain_1 (-2) Samples.poor_A) Hle).
  - exact (proj1 (repeat_is_composite_of_copies Samples.gain_1 3 Samples.poor_A)).
Defined.

(** The loop on an inner context that only differs in the state it holds. *)
Lemma composite_loop_inner exec context g effects currentState allMessages :
  composite_loop exec (with_gameState context g) effects currentState allMessages
  = composite_loop exec context effects currentState allMessages.
Proof.
  revert currentState allMessages.
  induction effects as [|e rest IH]; intros cur msgs; simpl; [done|].
  change (with_gameState (with_gameState context g) cur) with (with_gameState context cur).
  destruct (success _); [apply IH|done].
Qed.

(** The messages accumulated before a run are a prefix of its messages and
    change nothing else. *)
Lemma composite_loop_prefix exec context effects currentState allMessages :
  composite_loop exec context effects currentState allMessages
  = let r := composite_loop exec context effects currentState [] in
    result (success r) (newState r) (allMessages ++ messages r).
Proof.
  revert currentState allMessages.
  induction effects as [|e rest IH]; intros cur msgs; simpl.
  - by rewrite app_nil_r.
  - destruct (success _); simpl; [|done].
    rewrite (IH _ (msgs ++ _)), (IH _ (messages _)). simpl. by rewrite app_assoc.
Qed.

Lemma composite_loop_nested context inner post currentState allMessages :
  composite_loop execute context (CompositeEffect inner :: post) currentState allMessages
  = composite_loop execute context (inner ++ post) currentState allMessages.
Proof.
  rewrite composite_loop_app. simpl. rewrite composite_loop_inner.
  rewrite (composite_loop_prefix _ _ inner currentState allMessages). simpl.
  destruct (success (composite_loop execute context inner currentState [])); done.
Qed.

(** X5: a composite nested in a composite runs as if its children stood in
    the outer list in its place; so [compose] is associative in what it
    returns, and both groupings return what the flat list of three
    returns. *)
Theorem composite_flattens (context : GameContext) :
  (forall pre inner post,
     execute (all (pre ++ all inner :: post)) context
     = execute (all (pre ++ inner ++ post)) context) /\
  (forall a b c,
     execute (compose (compose a b) c) context = execute (all [a; b; c]) context /\
     execute (compose a (compose b c)) context = execute (all [a; b; c]) context).
Proof.
  assert (Hflat : forall pre inner post,
    execute (all (pre ++ all inner :: post)) context
    = execute (all (pre ++ inner ++ post)) context).
  { intros pre inner post. unfold all. rewrite !execute_Composite.
    rewrite !(composite_loop_app _ _ pre). simpl.
    destruct (success _); [|done]. apply composite_loop_nested. }
  split; [exact Hflat|]. intros a b c. split.
  - exact (Hflat [] [a; b] [c]).
  - exact (Hflat [a] [b; c] []).
Qed.

(** X6: chaining with a continuation that ignores the first result is
    sequencing: [a.chain(_ => b)] and [a.compose(b)] return the same success,
    state and messages. *)
Theorem constant_chain_is_compose (a b : Effect) (context : GameContext) :
  let chained := execute (chain a (fun _ => b)) context in
  let composed := execute (compose a b) context in
  success chained = success composed /\
  newState chained = newState composed /\
  messages chained = messages composed.
Proof.
  simpl. destruct (success (execute a context)) eqn:Ha; simpl.
  - change (with_gameState (with_gameState context (gameState context))
              (newState (execute a (with_gameState context (gameState context)))))
      with (with_gameState context
              (newState (execute a (with_gameState context (gameState context))))).
    assert (Hctx : with_gameState context (gameState context) = context)
      by (by destruct context).
    rewrite !Hctx, Ha.
    destruct (success (execute b _)); simpl; by rewrite ?app_nil_r.
  - assert (Hctx : with_gameState context (gameState context) = context)
      by (by destruct context).
    rewrite !Hctx, Ha. done.
Qed.

End Algebra.

(** ** More on the primitives *)

Section Primitives.
Import StateModel Vocabulary Effect.

Lemma resolve_opponent_other context k :
  resolve_target TargetOpponent context = Some k -> k <> playerId context.
Proof.
  simpl. destruct (find_other _ _) as [[k' p]|] eqn:Ho; [|done].
  intros [= <-]. by eapply find_other_lookup.
Qed.

(** X7: an effect aimed at the opponent or the ally never changes the record
    of the acting player, whatever the amounts and whether it succeeds or
    not. *)
Theorem opponent_effects_spare_the_actor (context : GameContext) :
  let mine r := lookup_player (playerId context) (players (newState r)) in
  let before := lookup_player (playerId context) (players (gameState context)) in
  (forall amount, mine (execute (DamageEffect amount DamageOpponent) context) = before) /\
  (forall amount, mine (execute (HealEffect amount HealAlly) context) = before) /\
  (forall count, mine (execute (DrawCardEffect count TargetOpponent) context) = before) /\
  (forall resourceType amount operation,
     mine (execute (ResourceEffect resourceType amount operation TargetOpponent) context)
     = before).
Proof.
  simpl. repeat split.
  - intros amount. unfold DamageEffect.execute. simpl.
    destruct (find_other _ _) as [[k p]|] eqn:Ho; [|done].
    destruct (truthy_string k); [|done]. simpl.
    apply lookup_set_player_ne. by eapply find_other_lookup.
  - intros amount. unfold HealEffect.execute. simpl.
    destruct (find_other _ _) as [[k p]|] eqn:Ho; [|done].
    destruct (truthy_string k); [|done]. simpl.
    apply lookup_set_player_ne. by eapply find_other_lookup.
  - intros count. unfold DrawCardEffect.execute.
    destruct (resolve_target TargetOpponent context) as [k|] eqn:Hk; [|done].
    destruct (truthy_string k); [|done].
    destruct (lookup_player k _); [|done].
    destruct (DrawCardEffect.draw_loop _ _ _ _ _) as [[p' n] msgs]. simpl.
    apply lookup_set_player_ne. by apply resolve_opponent_other.
  - intros resourceType amount operation. unfold ResourceEffect.execute.
    destruct (resolve_target TargetOpponent context) as [k|] eqn:Hk; [|done].
    destruct (truthy_string k); [|done].
    destruct (lookup_player k _); [|done].
    destruct (ResourceEffect.apply_operation _ _ _ _ _) as [[ok p'] msg]. simpl.
    apply lookup_set_player_ne. by apply resolve_opponent_other.
Qed.



(** What a resource operation leaves under the target's key when the target
    is resolved. *)
Lemma resource_execute_resolved resourceType amount operation target context k p :
  resolve_target target context = Some k ->
  truthy_string k = true ->
  lookup_player k (players (gameState context)) = Some p ->
  let '(ok, p', msg) := ResourceEffect.apply_operation k resourceType amount operation p in
  execute (ResourceEffect resourceType amount operation target) context
  = result ok (with_players (gameState context)
                 (set_player k p' (players (gameState context)))) [msg].
Proof.
  intros Hk Ht Hp. simpl. unfold ResourceEffect.execute. rewrite Hk, Ht, Hp.
  by destruct (ResourceEffect.apply_operation _ _ _ _ _) as [[ok p'] msg].
Qed.

Lemma resource_success_resolved resourceType amount operation target context :
  success (execute (ResourceEffect resourceType amount operation target) context) = true ->
  exists k p,
    resolve_target target context = Some k /\ truthy_string k = true /\
    lookup_player k (players (gameState context)) = Some p.
Proof.
  simpl. unfold ResourceEffect.execute.
  destruct (resolve_target target context) as [k|]; [|done].
  destruct (truthy_string k) eqn:Ht; [|done].
  destruct (lookup_player k _) as [p|] eqn:Hp; [|done]. eauto.
Qed.

(** X9: a [spend] that succeeds never leaves the resource negative, whatever
    the amount and the state before. *)
Theorem spend_leaves_no_debt (resourceType : string) (amount : Z) (target : PlayerTarget)
  (context : GameContext) :
  let r := execute (ResourceEffect resourceType amount OpSpend target) context in
  success r = true ->
  exists k p',
    resolve_target target context = Some k /\
    lookup_player k (players (newState r)) = Some p' /\
    (0 <= ResourceEffect.currentAmount resourceType p')%Z.
Proof.
  intros r Hok. subst r.
  destruct (resource_success_resolved _ _ _ _ _ Hok) as (k & p & Hk & Ht & Hp).
  pose proof (resource_execute_resolved resourceType amount OpSpend target context k p
                Hk Ht Hp) as Hrun.
  unfold ResourceEffect.apply_operation in Hrun.
  destruct (Z.ltb_spec (ResourceEffect.currentAmount resourceType p) amount) as [Hlt|Hle].
  - rewrite Hrun in Hok. done.
  - rewrite Hrun. simpl. eexists k, _. split; [done|].
    split; [by apply lookup_set_player_eq with p|].
    unfold ResourceEffect.currentAmount, ResourceEffect.write. simpl.
    rewrite lookup_insert_eq. simpl. fold (ResourceEffect.currentAmount resourceType p).
    lia.
Qed.

Lemma spend_leaves_no_debt_witness :
  let r := execute (ResourceEffect "mana" 2 OpSpend TargetSelf) Samples.poor_A in
  success r = true /\
  exists k p',
    resolve_target TargetSelf Samples.poor_A = Some k /\
    lookup_player k (players (newState r)) = Some p' /\
    (0 <= ResourceEffect.currentAmount "mana" p')%Z.
Proof.
  intros r.
  assert (Hok : success r = true) by (vm_compute; reflexivity).
  split; [exact Hok|].
  exact (spend_leaves_no_debt "mana" 2 TargetSelf Samples.poor_A Hok).
Defined.

(** X10: gaining an amount and then spending it gives the amount back: when
    the target is resolved, the resource type is not a member name
    inherited from [Object.prototype], and the amount held is non-negative
    and is, like the amount gained and their sum, a safe integer, [gain]
    composed with [spend] of the same amount succeeds and the target holds
    what it held. *)
Theorem gain_then_spend_restores (resourceType : string) (amount : Z)
  (target : PlayerTarget) (context : GameContext) (k : string) (p : PlayerState) :
  resolve_target target context = Some k ->
  truthy_string k = true ->
  lookup_player k (players (gameState context)) = Some p ->
  (0 <= ResourceEffect.currentAmount resourceType p)%Z ->
  Inherited.inherited_key resourceType = false ->
  Vocabulary.safe_integer (ResourceEffect.currentAmount resourceType p) ->
  Vocabulary.safe_integer amount ->
  Vocabulary.safe_integer (ResourceEffect.currentAmount resourceType p + amount) ->
  let r := execute (compose (ResourceEffect resourceType amount OpGain target)
                      (ResourceEffect resourceType amount OpSpend target)) context in
  success r = true /\
  exists p',
    lookup_player k (players (newState r)) = Some p' /\
    ResourceEffect.currentAmount resourceType p'
    = ResourceEffect.currentAmount resourceType p.
Proof.
  intros Hk Ht Hp Hpos _ _ _ _ r. subst r. unfold compose. rewrite execute_Composite.
  cbn [composite_loop].
  assert (Hctx : with_gameState context (gameState context) = context)
    by (by destruct context).
  rewrite Hctx.
  pose proof (resource_execute_resolved resourceType amount OpGain target context k p
                Hk Ht Hp) as Hgain.
  cbn [ResourceEffect.apply_operation] in Hgain. rewrite Hgain. cbn [success newState result].
  set (p1 := ResourceEffect.write resourceType
               (ResourceEffect.currentAmount resourceType p + amount) p) in *.
  set (g1 := with_players (gameState context)
               (set_player k p1 (players (gameState context)))) in *.
  assert (Hk1 : resolve_target target (with_gameState context g1) = Some k).
  { destruct target; [exact Hk|]. simpl in *.
    destruct (find_other _ (players (gameState context))) as [[k' q]|] eqn:Ho; [|done].
    injection Hk as ->.
    assert (Hother : forall ps, find_other (playerId context) ps = Some (k, q) ->
      exists q', find_other (playerId context) (set_player k p1 ps) = Some (k, q')).
    { induction ps as [|[k0 q0] rest IH]; simpl; [done|].
      destruct (String.eqb_spec k0 (playerId context)) as [->|Hne].
      - intros Hrest. destruct (String.eqb_spec (playerId context) k) as [<-|Hne'].
        + apply find_other_lookup in Hrest as [_ ?]. done.
        + simpl. rewrite String.eqb_refl. by apply IH.
      - intros [= -> ->]. rewrite String.eqb_refl. simpl.
        destruct (String.eqb_spec k (playerId context)); [done|eauto]. }
    destruct (Hother _ Ho) as [q' Hq']. by rewrite Hq'. }
  assert (Hp1 : lookup_player k (players (gameState (with_gameState context g1))) = Some p1)
    by (by apply lookup_set_player_eq with p).
  pose proof (resource_execute_resolved resourceType amount OpSpend target
                (with_gameState context g1) k p1 Hk1 Ht Hp1) as Hspend.
  unfold ResourceEffect.apply_operation in Hspend.
  assert (Hcur : ResourceEffect.currentAmount resourceType p1
                 = (ResourceEffect.currentAmount resourceType p + amount)%Z).
  { unfold p1, ResourceEffect.currentAmount, ResourceEffect.write. simpl.
    by rewrite lookup_insert_eq. }
  rewrite Hcur in Hspend.
  destruct (Z.ltb_spec (ResourceEffect.currentAmount resourceType p + amount) amount);
    [lia|].
  rewrite Hspend. cbn [success newState result]. split; [done|].
  eexists. split.
  - simpl. by apply lookup_set_player_eq with p1.
  - unfold ResourceEffect.currentAmount, ResourceEffect.write. simpl.
    rewrite lookup_insert_eq. simpl.
    fold (ResourceEffect.currentAmount resourceType p). lia.
Qed.

Lemma gain_then_spend_restores_witness :
  resolve_target TargetSelf Samples.poor_A = Some "A"%string /\
  Inherited.inherited_key "mana" = false /\
  Vocabulary.safe_integer (3 + 7) /\
  let r := execute (compose (ResourceEffect "mana" 7 OpGain TargetSelf)
                      (ResourceEffect "mana" 7 OpSpend TargetSelf)) Samples.poor_A in
  success r = true /\
  exists p',
    lookup_player "A" (players (newState r)) = Some p' /\
    ResourceEffect.currentAmount "mana" p' = 3%Z.
Proof.
  assert (Hk : resolve_target TargetSelf Samples.poor_A = Some "A"%string) by reflexivity.
  assert (Ht : truthy_string "A" = true) by reflexivity.
  assert (Hp : lookup_player "A" (players (gameState Samples.poor_A))
               = Some (with_resources (Samples.fresh_player "A")
                         {[ "mana"%string := 3%Z ]})) by reflexivity.
  assert (Hpos : (0 <= ResourceEffect.currentAmount "mana"
                         (with_resources (Samples.fresh_player "A")
                            {[ "mana"%string := 3%Z ]}))%Z) by (vm_compute; discriminate).
  assert (Hname : Inherited.inherited_key "mana" = false) by reflexivity.
  assert (Hheld : Vocabulary.safe_integer 3).
  { unfold Vocabulary.safe_integer, Vocabulary.MAX_SAFE_INTEGER. lia. }
  assert (Hamount : Vocabulary.safe_integer 7).
  { unfold Vocabulary.safe_integer, Vocabulary.MAX_SAFE_INTEGER. lia. }
  assert (Hsum : Vocabulary.safe_integer (3 + 7)).
  { unfold Vocabulary.safe_integer, Vocabulary.MAX_SAFE_INTEGER. lia. }
  split; [exact Hk|]. split; [exact Hname|]. split; [exact Hsum|].
  exact (gain_then_spend_restores "mana" 7 TargetSelf Samples.poor_A "A" _
           Hk Ht Hp Hpos Hname Hheld Hamount Hsum).
Defined.

End Primitives.

(** ** More on the registry *)

Section RegistryLineage.
Import Registry.
Implicit Types (h : Heap) (c : Context) (this r : nat) (id : string).

Lemma provide_has this id id' h :
  has this id' (provide this id h).2 = has this id' h.
Proof.
  unfold provide. destruct (contexts h !! this) as [c|] eqn:Hthis; [|done].
  destruct (services c !! id) as [cached|] eqn:Hcached; [done|].
  destruct (providers c !! id) as [provider|] eqn:Hprovider; [|done].
  destruct (provider (built h)) as [made n]. unfold has. simpl.
  rewrite lookup_insert_eq, Hthis. simpl.
  destruct (decide (id = id')) as [<-|Hne].
  - rewrite lookup_insert_eq.
    rewrite (bool_decide_eq_true_2 (is_Some (providers c !! id)))
      by (exists provider; exact Hprovider).
    done.
  - by rewrite lookup_insert_ne.
Qed.

(** X11: registrations are never lost along a lineage.  What [has] answers
    [true] for on an object, it answers [true] for on every object made from
    it by [register] or [fork], [register] adds its own id, and [provide]
    changes no answer of [has] on its receiver. *)
Theorem registrations_are_append_only (this : nat) (h : Heap) (c : Context) (id : string) :
  contexts h !! this = Some c ->
  has this id h = true ->
  (forall id' provider,
     let '(r, h') := register this id' provider h in
     has r id h' = true /\ has r id' h' = true) /\
  (let '(f, h') := fork this h in has f id h' = true) /\
  (forall id', has this id (provide this id' h).2 = true).
Proof.
  intros Hthis Hhas. unfold has in Hhas. rewrite Hthis in Hhas.
  split; [|split].
  - intros id' provider.
    destruct (register_spec this id' provider h c Hthis) as (r & -> & _ & _).
    unfold has, update. simpl. rewrite lookup_insert_eq. simpl. split.
    + destruct (decide (id' = id)) as [->|Hne].
      * by rewrite lookup_insert_eq.
      * by rewrite lookup_insert_ne.
    + by rewrite lookup_insert_eq.
  - destruct (fork_spec this h c Hthis) as (f & -> & _ & _).
    unfold has, update. simpl. by rewrite lookup_insert_eq.
  - intros id'. rewrite provide_has. unfold has. by rewrite Hthis.
Qed.

Lemma registrations_are_append_only_witness :
  has 0 "logger" Samples.one_context = true /\
  let '(r, h') := register 0 "rng" Samples.new_logger Samples.one_context in
  has r "logger" h' = true /\ has r "rng" h' = true /\
  has 0 "rng" h' = false.
Proof.
  assert (Hthis : contexts Samples.one_context !! 0
    = Some (mkContext ∅ {[ "logger"%string := Samples.new_logger ]})) by reflexivity.
  assert (Hhas : has 0 "logger" Samples.one_context = true) by (vm_compute; reflexivity).
  split; [exact Hhas|].
  pose proof (proj1 (registrations_are_append_only 0 Samples.one_context _ "logger"
                       Hthis Hhas) "rng"%string Samples.new_logger) as Hreg.
  destruct (register 0 "rng" Samples.new_logger Samples.one_context) as [r h'] eqn:Hrun.
  destruct Hreg as [Hold Hnew]. split; [exact Hold|]. split; [exact Hnew|].
  vm_compute in Hrun. injection Hrun as <- <-. vm_compute. reflexivity.
Defined.

(** X12: a cached instance outlives a new registration of its id.  When the
    receiver of [register(id, provider)] has already built its instance for
    [id], [provide(id)] on the new object returns that old instance and the
    new provider is not called. *)
Theorem register_keeps_cached_instance (this : nat) (h : Heap) (c : Context)
  (id : string) (cached : Service) (provider : Provider) :
  contexts h !! this = Some c ->
  services c !! id = Some cached ->
  let '(r, h') := register this id provider h in
  provide r id h' = (Returned cached, h') /\ built h' = built h.
Proof.
  intros Hthis Hcached.
  destruct (register_spec this id provider h c Hthis) as (r & -> & _ & _).
  unfold provide, update. simpl. rewrite lookup_insert_eq. simpl.
  by rewrite Hcached.
Qed.

Lemma register_keeps_cached_instance_witness :
  let '(_, h1) := provide 0 "logger" Samples.one_context in
  let other : Provider := fun n => (mkService "logger" (n + 100), S n) in
  let '(r, h2) := register 0 "logger" other h1 in
  provide r "logger" h2 = (Returned (mkService "logger" 0), h2).
Proof.
  destruct (provide 0 "logger" Samples.one_context) as [first h1] eqn:Hfirst.
  vm_compute in Hfirst. injection Hfirst as <- <-.
  intros other.
  assert (Hthis : contexts
    (mkHeap {[ 0 := mkContext {[ "logger"%string := mkService "logger" 0 ]}
                      {[ "logger"%string := Samples.new_logger ]} ]} 1) !! 0
    = Some (mkContext {[ "logger"%string := mkService "logger" 0 ]}
              {[ "logger"%string := Samples.new_logger ]})) by reflexivity.
  assert (Hcached : services (mkContext {[ "logger"%string := mkService "logger" 0 ]}
              {[ "logger"%string := Samples.new_logger ]}) !! "logger"%string
    = Some (mkService "logger" 0)) by reflexivity.
  pose proof (register_keeps_cached_instance 0 _ _ "logger" _ other Hthis Hcached) as Hkeep.
  destruct (register 0 "logger" other _) as [r h2]. exact (proj1 Hkeep).
Defined.



End RegistryLineage.

(** ** More on the in-memory store *)

Section StorageFacts.
Import StateModel Vocabulary MemoryStorage.

Lemma clone_is_storable (v : JsValue) : storable (clone v) = true.
Proof.
  induction v as [| | | | |items IH|fields IH] using JsValue_nested_ind;
    simpl; try done.
  - induction IH as [|x rest Hx _ IHrest]; simpl; [done|]. by rewrite Hx, IHrest.
  - induction IH as [|[k x] rest Hx _ IHrest]; simpl in *; [done|].
    destruct x; simpl in *; try done; by rewrite ?Hx, IHrest.
Qed.

Lemma truthy_clone (v : JsValue) : v <> JUndefined -> truthy (clone v) = truthy v.
Proof. by destruct v. Qed.

(** X14: what [save] stores and [load] returns is the copy that JSON makes:
    [undefined] items of arrays come back as [null], [undefined] fields are
    gone, and nothing else changes.  The stored value never contains
    [undefined], copying it again changes nothing, and a truthy value loads
    as exactly that copy. *)
Theorem save_stores_the_json_copy (key : string) (v : JsValue)
  (store : gmap string JsValue) :
  v <> JUndefined ->
  save key v store = (Returned (), <[key := clone v]> store) /\
  storable (clone v) = true /\
  clone (clone v) = clone v /\
  (truthy v = true -> load key (save key v store).2 = Returned (clone v)).
Proof.
  intros Hv.
  assert (Hsave : save key v store = (Returned (), <[key := clone v]> store))
    by (unfold save, deep_copy; by destruct v).
  split; [exact Hsave|]. split; [apply clone_is_storable|].
  split; [apply clone_storable, clone_is_storable|].
  intros Ht. rewrite Hsave. unfold load. simpl.
  rewrite lookup_insert_eq, truthy_clone, Ht by done.
  apply deep_copy_storable, clone_is_storable.
Qed.

Lemma save_stores_the_json_copy_witness :
  let v := JObj [("hp"%string, JNum 3); ("buff"%string, JUndefined);
                 ("log"%string, JArr [JUndefined; JStr "hit"])] in
  v <> JUndefined /\
  truthy v = true /\
  load "run" (save "run" v ∅).2
  = Returned (JObj [("hp"%string, JNum 3); ("log"%string, JArr [JNull; JStr "hit"])]).
Proof.
  intros v.
  assert (Hv : v <> JUndefined) by discriminate.
  assert (Ht : truthy v = true) by reflexivity.
  split; [exact Hv|]. split; [exact Ht|].
  exact (proj2 (proj2 (proj2 (save_stores_the_json_copy "run" v ∅ Hv))) Ht).
Defined.

(** X15: keys do not interfere and [delete] forgets: [save] and [delete] on
    one key change neither [load] nor [exists] of another key; after
    [delete] the key does not exist and loads as [null]; after a [save] that
    returned it exists; and [save(key, undefined)] is rejected and stores
    nothing. *)
Theorem storage_keys_are_independent (key : string) (v : JsValue)
  (store : gmap string JsValue) :
  (forall other,
     other <> key ->
     load other (save key v store).2 = load other store /\
     exists_ other (save key v store).2 = exists_ other store /\
     load other (delete_ key store) = load other store /\
     exists_ other (delete_ key store) = exists_ other store) /\
  exists_ key (delete_ key store) = false /\
  load key (delete_ key store) = Returned JNull /\
  (v <> JUndefined -> exists_ key (save key v store).2 = true) /\
  save key JUndefined store = (Thrown "SyntaxError", store).
Proof.
  split; [|split; [|split; [|split]]].
  - intros other Hne. unfold load, exists_, delete_, save.
    destruct (deep_copy v); simpl;
      rewrite ?lookup_insert_ne, ?lookup_delete_ne by done; done.
  - unfold exists_, delete_. rewrite lookup_delete_eq. done.
  - unfold load, delete_. by rewrite lookup_delete_eq.
  - intros Hv. unfold exists_, save, deep_copy.
    destruct v; try done; simpl; rewrite lookup_insert_eq; done.
  - done.
Qed.

Lemma storage_keys_are_independent_witness :
  "b"%string <> "a"%string /\
  load "b" (save "a" (JNum 1) {[ "b"%string := JStr "kept" ]}).2 = Returned (JStr "kept") /\
  load "b" (delete_ "a" {[ "b"%string := JStr "kept" ]}) = Returned (JStr "kept").
Proof.
  assert (Hne : "b"%string <> "a"%string) by discriminate.
  pose proof (proj1 (storage_keys_are_independent "a" (JNum 1)
                       {[ "b"%string := JStr "kept" ]}) "b"%string Hne)
    as (Hsave & _ & Hdelete & _).
  split; [exact Hne|]. split.
  - rewrite Hsave. reflexivity.
  - rewrite Hdelete. reflexivity.
Defined.

End StorageFacts.

(** ** The event bus *)

Section EventBus.
Import StateModel Vocabulary SimpleEventBus.
Context {World : Type}.
Implicit Types (bus : Bus World) (h : Handler World) (members : list (Handler World))
  (w : World) (console : list (string * string)).

Lemma run_handlers_app event data members1 members2 w console :
  run_handlers event data (members1 ++ members2) w console
  = let '(w1, console1) := run_handlers event data members1 w console in
    run_handlers event data members2 w1 console1.
Proof.
  revert w console. induction members1 as [|h rest IH]; intros w console; simpl; [done|].
  destruct (call h data w) as [[[]|error] w']; apply IH.
Qed.

Lemma emit_subscribers event data bus w :
  emit event data bus w = run_handlers event data (subscribers event bus) w [].
Proof. unfold emit, subscribers. by destruct (handlers bus !! event). Qed.

Lemma set_delete_snoc h members :
  is_member h members = false -> set_delete h (members ++ [h]) = members.
Proof.
  unfold is_member, set_delete. intros Hno. rewrite List.filter_app. simpl.
  rewrite Nat.eqb_refl. simpl. rewrite app_nil_r.
  induction members as [|m rest IH]; simpl in *; [done|].
  apply orb_false_elim in Hno as [Hm Hrest]. rewrite Hm. simpl. by rewrite IH.
Qed.

Lemma subscribe_subscribers event h bus :
  subscribers event (subscribe event h bus).2 = set_add h (subscribers event bus).
Proof.
  unfold subscribe, subscribers.
  destruct (handlers bus !! event) as [s|] eqn:Hs; simpl.
  - by rewrite Hs, lookup_insert_eq.
  - by rewrite !lookup_insert_eq.
Qed.

(** X16: [subscribe] appends, once.  A handler that is not yet subscribed to
    the event is run by [emit] after all the handlers subscribed before it,
    on the world they left, whether or not any of them threw; subscribing a
    handler that is already subscribed to the event changes nothing. *)
Theorem subscribe_appends_once (event : string) (h : Handler World) (bus : Bus World) :
  (is_member h (subscribers event bus) = false ->
   forall data w,
     emit event data (subscribe event h bus).2 w
     = let '(w1, console1) := emit event data bus w in
       match call h data w1 with
       | (Returned _, w2) => (w2, console1)
       | (Thrown error, w2) =>
           (w2, console1 ++ [("Error in event handler for " +:+ event +:+ ":", error)])
       end) /\
  (is_member h (subscribers event bus) = true -> (subscribe event h bus).2 = bus).
Proof.
  split.
  - intros Hnew data w. rewrite !emit_subscribers, subscribe_subscribers.
    unfold set_add. rewrite Hnew, run_handlers_app.
    destruct (run_handlers event data (subscribers event bus) w []) as [w1 console1].
    simpl. by destruct (call h data w1) as [[[]|error] w2].
  - unfold subscribers, subscribe.
    destruct (handlers bus !! event) as [s|] eqn:Hs; [|done].
    intros Hold. simpl. unfold set_add. rewrite Hold.
    destruct (sets bus !! s) as [members|] eqn:Hmembers; [|done]. simpl.
    rewrite insert_id by done. by destruct bus.
Qed.

(** What [emit] runs depends on the bus through [subscribers] only. *)
Lemma subscribers_unsubscribe_fresh event h bus event' :
  is_member h (subscribers event bus) = false ->
  subscribers event' (unsubscribe (subscribe event h bus).1 (subscribe event h bus).2)
  = subscribers event' bus.
Proof.
  intros Hnew. unfold subscribers in *. unfold subscribe, unsubscribe.
  destruct (handlers bus !! event) as [s|] eqn:Hs; simpl.
  - rewrite lookup_insert_eq. simpl. unfold set_add. rewrite Hnew.
    rewrite set_delete_snoc by done. rewrite insert_insert_eq.
    set (members := default [] (sets bus !! s)) in *.
    assert (Hsets : forall s', default [] (<[s := members]> (sets bus) !! s')
                               = default [] (sets bus !! s')).
    { intros s'. destruct (decide (s = s')) as [<-|Hne];
        [by rewrite lookup_insert_eq|by rewrite lookup_insert_ne]. }
    destruct members as [|m rest] eqn:Hm; simpl.
    + destruct (decide (event = event')) as [<-|Hne].
      * rewrite lookup_delete_eq, Hs. symmetry. exact Hm.
      * rewrite lookup_delete_ne by done.
        destruct (handlers bus !! event'); [apply Hsets|done].
    + destruct (handlers bus !! event'); [apply Hsets|done].
  - rewrite !lookup_insert_eq. simpl. unfold set_delete. simpl.
    rewrite Nat.eqb_refl. simpl.
    rewrite delete_insert_id by done.
    destruct (handlers bus !! event') as [s'|]; [|done].
    rewrite !insert_insert_eq.
    destruct (decide (fresh (dom (sets bus)) = s')) as [<-|Hne].
    + rewrite lookup_insert_eq. simpl.
      by rewrite (not_elem_of_dom_1 _ _ (is_fresh (dom (sets bus)))).
    + by rewrite lookup_insert_ne.
Qed.

(** X17: unsubscribing undoes subscribing.  After a handler that was not
    subscribed to the event is subscribed and the returned closure is called,
    [emit] does for every event what it did before the two calls. *)
Theorem unsubscribe_undoes_subscribe (event : string) (h : Handler World) (bus : Bus World) :
  is_member h (subscribers event bus) = false ->
  let '(off, bus') := subscribe event h bus in
  forall event' data w,
    emit event' data (unsubscribe off bus') w = emit event' data bus w.
Proof.
  intros Hnew. pose proof (subscribers_unsubscribe_fresh event h bus) as Hsame.
  destruct (subscribe event h bus) as [off bus']. simpl in Hsame.
  intros event' data w. by rewrite !emit_subscribers, Hsame.
Qed.

(** X18: a closure called when its own [Set] holds no other handler deletes
    the event's entry, whichever [Set] that entry holds by then.  So calling
    an unsubscribe closure a second time, after the event lost its last
    handler and got new ones, silences the new handlers: [emit] runs
    nothing. *)
Theorem stale_unsubscribe_silences_the_event (off : Unsubscribe World) (bus : Bus World) :
  set_delete (of_handler off) (default [] (sets bus !! of_set off)) = [] ->
  handlers (unsubscribe off bus) !! of_event off = None /\
  forall data w, emit (of_event off) data (unsubscribe off bus) w = (w, []).
Proof.
  intros Hempty.
  assert (Hgone : handlers (unsubscribe off bus) !! of_event off = None).
  { unfold unsubscribe. rewrite Hempty. simpl. apply lookup_delete_eq. }
  split; [exact Hgone|]. intros data w. unfold emit. by rewrite Hgone.
Qed.

End EventBus.

Section EventBusScenario.
Import StateModel Vocabulary SimpleEventBus.

Lemma subscribe_appends_once_witness :
  let bus := (subscribe "turn" (Samples.thrower 1) new_bus).2 in
  is_member (Samples.recorder 2) (subscribers "turn" bus) = false /\
  emit "turn" JNull (subscribe "turn" (Samples.recorder 2) bus).2 []
  = ([1; 2], [("Error in event handler for turn:"%string, "boom"%string)]) /\
  is_member (Samples.thrower 1) (subscribers "turn" bus) = true /\
  (subscribe "turn" (Samples.thrower 1) bus).2 = bus.
Proof.
  intros bus.
  assert (Hnew : is_member (Samples.recorder 2) (subscribers "turn" bus) = false)
    by (vm_compute; reflexivity).
  assert (Hold : is_member (Samples.thrower 1) (subscribers "turn" bus) = true)
    by (vm_compute; reflexivity).
  split; [exact Hnew|]. split.
  - rewrite (proj1 (subscribe_appends_once "turn" (Samples.recorder 2) bus) Hnew).
    vm_compute. reflexivity.
  - split; [exact Hold|].
    exact (proj2 (subscribe_appends_once "turn" (Samples.thrower 1) bus) Hold).
Defined.

Lemma unsubscribe_undoes_subscribe_witness :
  let bus := (subscribe "turn" (Samples.recorder 1) new_bus).2 in
  is_member (Samples.recorder 2) (subscribers "turn" bus) = false /\
  let '(off, bus') := subscribe "turn" (Samples.recorder 2) bus in
  emit "turn" JNull bus' [] = ([1; 2], []) /\
  emit "turn" JNull (unsubscribe off bus') [] = ([1], []).
Proof.
  intros bus.
  assert (Hnew : is_member (Samples.recorder 2) (subscribers "turn" bus) = false)
    by (vm_compute; reflexivity).
  split; [exact Hnew|].
  pose proof (unsubscribe_undoes_subscribe "turn" (Samples.recorder 2) bus Hnew) as Hundo.
  destruct (subscribe "turn" (Samples.recorder 2) bus) as [off bus'] eqn:Hrun.
  split.
  - vm_compute in Hrun. injection Hrun as <- <-. vm_compute. reflexivity.
  - rewrite Hundo. vm_compute. reflexivity.
Defined.

Lemma stale_unsubscribe_silences_the_event_witness :
  emit "turn" JNull Samples.second_subscribed [] = ([2], []) /\
  set_delete (of_handler Samples.first_off)
    (default [] (sets Samples.second_subscribed !! of_set Samples.first_off)) = [] /\
  emit "turn" JNull (unsubscribe Samples.first_off Samples.second_subscribed) []
  = ([], []).
Proof.
  assert (Hstale : set_delete (of_handler Samples.first_off)
    (default [] (sets Samples.second_subscribed !! of_set Samples.first_off)) = [])
    by (vm_compute; reflexivity).
  split; [vm_compute; reflexivity|]. split; [exact Hstale|].
  exact (proj2 (stale_unsubscribe_silences_the_event Samples.first_off
                  Samples.second_subscribed Hstale) JNull []).
Defined.

End EventBusScenario.

(** ** The random generator *)

Section Shuffle.
Import Vocabulary SeededRandomGenerator.
Context {State A : Type}.
Variable nextInt : State -> Z -> Z -> Z * State.
Hypothesis nextInt_in_bounds : in_bounds nextInt.

Lemma swap_in_range (i : nat) (j : Z) (result : list A) :
  i < length result -> (0 <= j <= Z.of_nat i)%Z ->
  exists result',
    swap i j result = Some result' /\ result' ≡ₚ result /\
    length result' = length result.
Proof.
  intros Hi Hj. unfold swap. destruct (Z.ltb_spec j 0); [lia|].
  destruct (lookup_lt_is_Some_2 result i Hi) as [x Hx].
  destruct (lookup_lt_is_Some_2 result (Z.to_nat j) ltac:(lia)) as [y Hy].
  rewrite Hx, Hy. eexists. split; [done|]. split.
  - by apply Permutation_insert_swap.
  - by rewrite !length_insert.
Qed.

Lemma shuffle_loop_Permutation i (result : list A) st :
  i < length result \/ i = 0 ->
  exists shuffled,
    (shuffle_loop nextInt i result st).1 = Some shuffled /\ shuffled ≡ₚ result.
Proof.
  revert result st. induction i as [|i IH]; intros result st Hi; [by exists result|].
  cbn [shuffle_loop].
  pose proof (nextInt_in_bounds st 0%Z (Z.of_nat (S i)) ltac:(lia)) as Hj.
  destruct (nextInt st 0%Z (Z.of_nat (S i))) as [j st']. simpl fst in Hj.
  destruct (swap_in_range (S i) j result ltac:(lia) Hj) as (result' & -> & Hperm & Hlen).
  destruct (IH result' st' ltac:(lia)) as (shuffled & Hrun & Hshuffled).
  exists shuffled. split; [exact Hrun|]. by rewrite Hshuffled.
Qed.

(** X19: when [nextInt] answers within its bounds, [shuffle] returns a
    permutation of its argument: every index it draws is inside the array,
    and no element is lost or duplicated, whatever the state of the
    generator. *)
Theorem shuffle_is_a_permutation (array : list A) (st : State) :
  exists shuffled,
    (shuffle nextInt array st).1 = Some shuffled /\
    shuffled ≡ₚ array /\
    length shuffled = length array.
Proof.
  destruct (shuffle_loop_Permutation (length array - 1) array st) as (l & Hrun & Hperm).
  { destruct array; simpl; lia. }
  exists l. split; [exact Hrun|]. split; [exact Hperm|]. by rewrite Hperm.
Qed.

(** X20: [pick] returns an element of a non-empty array when [nextInt]
    answers within its bounds, and [undefined] on the empty array. *)
Theorem pick_returns_a_member (array : list A) (st : State) :
  (array <> [] -> exists x, (pick nextInt array st).1 = Some x /\ x ∈ array) /\
  (pick nextInt (@nil A) st).1 = None.
Proof.
  split.
  - intros Hne. unfold pick.
    assert (Hlen : 0 < length array) by (destruct array; [done|simpl; lia]).
    pose proof (nextInt_in_bounds st 0%Z (Z.of_nat (length array) - 1)%Z ltac:(lia)) as Hj.
    destruct (nextInt st 0%Z (Z.of_nat (length array) - 1)%Z) as [j st']. simpl in *.
    destruct (Z.ltb_spec j 0); [lia|].
    destruct (lookup_lt_is_Some_2 array (Z.to_nat j) ltac:(lia)) as [x Hx].
    exists x. split; [done|]. by eapply list_elem_of_lookup_2.
  - unfold pick. simpl. destruct (nextInt st 0%Z (Z.of_nat 0 - 1)%Z) as [j st'].
    simpl. destruct (j <? 0)%Z; [done|apply lookup_nil].
Qed.

End Shuffle.

Section ShuffleScenario.
Import Vocabulary SeededRandomGenerator.

Lemma stepping_in_bounds : in_bounds Samples.stepping.
Proof.
  intros st min max Hle. unfold Samples.stepping. simpl.
  pose proof (Z.mod_pos_bound st (max - min + 1) ltac:(lia)). lia.
Qed.

Lemma shuffle_is_a_permutation_witness :
  in_bounds Samples.stepping /\
  (shuffle Samples.stepping [10; 20; 30; 40] 1%Z).1 = Some [10; 40; 30; 20] /\
  exists shuffled,
    (shuffle Samples.stepping [10; 20; 30; 40] 1%Z).1 = Some shuffled /\
    shuffled ≡ₚ [10; 20; 30; 40] /\ length shuffled = 4.
Proof.
  split; [exact stepping_in_bounds|]. split; [vm_compute; reflexivity|].
  exact (shuffle_is_a_permutation Samples.stepping stepping_in_bounds
           [10; 20; 30; 40] 1%Z).
Defined.

Lemma pick_returns_a_member_witness :
  in_bounds Samples.stepping /\
  [10; 20; 30] <> [] /\
  exists x, (pick Samples.stepping [10; 20; 30] 7%Z).1 = Some x /\ x ∈ [10; 20; 30].
Proof.
  assert (Hne : [10; 20; 30] <> []) by discriminate.
  split; [exact stepping_in_bounds|]. split; [exact Hne|].
  exact (proj1 (pick_returns_a_member Samples.stepping stepping_in_bounds
                  [10; 20; 30] 7%Z) Hne).
Defined.

End ShuffleScenario.

(** ** Draws in a row *)

Section DrawTwice.
Import StateModel Vocabulary Effect.
Implicit Types (k : string) (p : PlayerState) (ps : list (string * PlayerState)).

Lemma find_other_set_player pid k p' ps :
  fst <$> find_other pid (set_player k p' ps) = fst <$> find_other pid ps.
Proof.
  induction ps as [|[k0 q] rest IH]; simpl; [done|].
  destruct (String.eqb k0 k); simpl; destruct (String.eqb k0 pid); done.
Qed.

Lemma resolve_target_after_write target context k p' :
  resolve_target target
    (with_gameState context
       (with_players (gameState context)
          (set_player k p' (players (gameState context)))))
  = resolve_target target context.
Proof. destruct target; simpl; [done|apply find_other_set_player]. Qed.

Lemma set_player_twice k p1 p2 ps :
  set_player k p2 (set_player k p1 ps) = set_player k p2 ps.
Proof.
  induction ps as [|[k0 q] rest IH]; simpl; [done|].
  destruct (String.eqb k0 k) eqn:Hk; simpl; rewrite Hk; [done|by rewrite IH].
Qed.

Lemma draw_loop_state targetId n p cardsDrawn msgs :
  (DrawCardEffect.draw_loop targetId n p cardsDrawn msgs).1.1 = after_draw n p.
Proof. by rewrite draw_loop_closed. Qed.

Lemma after_draw_add n m p : after_draw (n + m) p = after_draw m (after_draw n p).
Proof.
  rewrite <- !(draw_loop_state "" _ _ 0%Z []).
  revert p. induction n as [|n IH]; intros p; [done|].
  change (S n + m) with (S (n + m)).
  destruct (snoc_or_nil (deck p)) as [Hnil|(d & c & Hd)].
  - destruct (snoc_or_nil (discardPile p)) as [Hnone|(d & c & Hd)].
    + rewrite !draw_loop_step_stop by done. simpl.
      destruct m; [done|]. by rewrite draw_loop_step_stop.
    + rewrite !(draw_loop_step_refill _ _ _ _ _ d c) by done.
      rewrite !draw_loop_state. rewrite <- !(draw_loop_state "" _ _ 0%Z []). apply IH.
  - rewrite !(draw_loop_step_deck _ _ _ _ _ d c) by done.
    rewrite !draw_loop_state. rewrite <- !(draw_loop_state "" _ _ 0%Z []). apply IH.
Qed.

Lemma draw_execute_resolved count target context k p :
  resolve_target target context = Some k ->
  truthy_string k = true ->
  lookup_player k (players (gameState context)) = Some p ->
  success (execute (DrawCardEffect count target) context) = true /\
  newState (execute (DrawCardEffect count target) context)
  = with_players (gameState context)
      (set_player k (after_draw (Z.to_nat count) p) (players (gameState context))).
Proof.
  intros Hk Ht Hp. simpl. unfold DrawCardEffect.execute. rewrite Hk, Ht, Hp.
  pose proof (draw_loop_state k (Z.to_nat count) p 0%Z []) as Hstate.
  destruct (DrawCardEffect.draw_loop k (Z.to_nat count) p 0 []) as [[p' n] msgs]. simpl in *.
  by rewrite Hstate.
Qed.

(** X21: draws add up.  Drawing [n] cards and then [m] cards, composed,
    leaves the state that one draw of [n + m] cards leaves, for the same
    target; when the target cannot be resolved both leave the state as it
    is. *)
Theorem draws_add_up (n m : Z) (target : PlayerTarget) (context : GameContext) :
  (0 <= n)%Z -> (0 <= m)%Z ->
  newState (execute
              (compose (DrawCardEffect n target) (DrawCardEffect m target))
              context)
  = newState (execute (DrawCardEffect (n + m) target) context).
Proof.
  intros Hn Hm. unfold compose. rewrite execute_Composite. cbn [composite_loop].
  assert (Hctx : with_gameState context (gameState context) = context)
    by (by destruct context).
  rewrite Hctx.
  destruct (resolve_target target context) as [k|] eqn:Hk; cycle 1.
  { simpl. unfold DrawCardEffect.execute. by rewrite Hk. }
  destruct (truthy_string k) eqn:Ht; cycle 1.
  { simpl. unfold DrawCardEffect.execute. by rewrite Hk, Ht. }
  destruct (lookup_player k (players (gameState context))) as [p|] eqn:Hp; cycle 1.
  { simpl. unfold DrawCardEffect.execute. by rewrite Hk, Ht, Hp. }
  destruct (draw_execute_resolved n target context k p Hk Ht Hp) as [Hok Hfirst].
  destruct (draw_execute_resolved (n + m) target context k p Hk Ht Hp) as [_ Hboth].
  rewrite Hok, Hfirst, Hboth.
  set (p1 := after_draw (Z.to_nat n) p).
  assert (Hk1 : resolve_target target
    (with_gameState context
       (with_players (gameState context) (set_player k p1 (players (gameState context)))))
    = Some k) by (by rewrite resolve_target_after_write).
  assert (Hp1 : lookup_player k
    (players (gameState (with_gameState context
       (with_players (gameState context) (set_player k p1 (players (gameState context)))))))
    = Some p1) by (by apply lookup_set_player_eq with p).
  destruct (draw_execute_resolved m target _ k p1 Hk1 Ht Hp1) as [Hok2 Hsecond].
  rewrite Hok2. cbn [newState result]. rewrite Hsecond. simpl.
  rewrite set_player_twice. unfold p1.
  by rewrite <- after_draw_add, Z2Nat.inj_add.
Qed.

Lemma draws_add_up_witness :
  (0 <= 1)%Z /\
  newState (execute
              (compose (DrawCardEffect 1 TargetSelf) (DrawCardEffect 1 TargetSelf))
              Samples.late_game)
  = newState (execute (DrawCardEffect 2 TargetSelf) Samples.late_game).
Proof.
  assert (H1 : (0 <= 1)%Z) by lia.
  split; [exact H1|].
  exact (draws_add_up 1 1 TargetSelf Samples.late_game H1 H1).
Defined.

End DrawTwice.
